(** * DS core: change events, the event bus and the type registry

    A shallow embedding of [src/core.js].  The file follows the source from
    top to bottom: [DS.Event] and its three classifiers, the [DS.Events]
    mixin ([bind], [unbind], [trigger]) over its linked registration lists,
    and the [DS.types] table with [DS.typeOf].

    JavaScript numbers are IEEE 754 binary64 values, taken here as the
    standard library's [spec_float]; strings are [string], one character
    for each code unit; objects that the code mutates in place
    (registration nodes, the memoised regular expressions) live in explicit
    stores.  What the runtime and the date library provide, and the source
    does not define, is a parameter ([Types.Host]). *)

From Stdlib Require Import ZArith Lia Ascii String.
From Corelib Require Import SpecFloat.
From stdpp Require Import gmap strings list pretty.

(** ** Values of the host language *)

Abbreviation number := spec_float (only parsing).

(** A time value built by the date library: an object with an identity, the
    number its [valueOf()] returns and the text its [toString()] returns. *)
Record Moment := mkMoment {
  moment_ref : positive;
  moment_valueOf : number;
  moment_toString : string
}.

Inductive value :=
| VUndefined
| VNull
| VBool (b : bool)
| VNumber (n : number)
| VString (s : string)
| VMoment (m : Moment).

(** The number an integer literal denotes: the nearest binary64 value. *)
Definition number_of_Z (z : Z) : number := binary_normalize 53 1024 z 0 false.

(** What a call does: it returns, or it raises.  [Unsupported] marks a
    regular expression source outside the fragment interpreted below. *)
Inductive failure := TypeError | Unsupported.

Inductive outcome (A : Type) :=
| Returns (a : A)
| Throws (e : failure).
Arguments Returns {A} a.
Arguments Throws {A} e.

(** ** Names every object inherits

    The objects the code uses as tables ([_callbacks], [_regexpTable])
    are written [{}]: a read [table[name]] that finds no property of the
    table's own goes on to [Object.prototype].  These are the names
    ECMAScript and its Annex B define there; a program can add others. *)
Definition Object_prototype : list string :=
  ["constructor"; "hasOwnProperty"; "isPrototypeOf"; "propertyIsEnumerable";
   "toLocaleString"; "toString"; "valueOf"; "__proto__";
   "__defineGetter__"; "__defineSetter__"; "__lookupGetter__";
   "__lookupSetter__"].

(** [name] names a property of [Object.prototype]. *)
Definition inherited (name : string) : bool :=
  existsb (String.eqb name) Object_prototype.

(** ** DS.Event: deltas and their classification *)
Module Event.

(** [{ old?: {...}, changed?: {...} }]; [None] is an absent property. *)
Record Delta := mkDelta {
  old : option (gmap string value);
  changed : option (gmap string value)
}.

(** [_.keys(obj)]: the object's own property names, here in the order of
    the finite map and not in the order the properties were written in;
    what follows reads their number and which names they are, never their
    order. *)
Definition keys (o : gmap string value) : list string := (map_to_list o).*1.

(** [_.isUndefined(x) || _.keys(x).length === 0] *)
Definition undefined_or_no_keys (x : option (gmap string value)) : bool :=
  match x with
  | None => true
  | Some o => Nat.eqb (length (keys o)) 0
  end.

Definition isDelete (delta : Delta) : bool :=
  if undefined_or_no_keys (changed delta) then true else false.

Definition isAdd (delta : Delta) : bool :=
  if undefined_or_no_keys (old delta) then true else false.

Definition isUpdate (delta : Delta) : bool :=
  if negb (isDelete delta) && negb (isAdd delta) then true else false.

(** Exactly one of three answers is [true]. *)
Definition exactly_one (a b c : bool) : bool :=
  match a, b, c with
  | true, false, false | false, true, false | false, false, true => true
  | _, _, _ => false
  end.

Definition classified_once (delta : Delta) : bool :=
  exactly_one (isAdd delta) (isUpdate delta) (isDelete delta).

(** A side of the delta that carries no field: absent, or an empty map. *)
Definition no_fields (x : option (gmap string value)) : Prop :=
  x = None ∨ x = Some ∅.

Definition both_empty : Delta := mkDelta (Some ∅) (Some ∅).
Definition both_absent : Delta := mkDelta None None.

Lemma undefined_or_no_keys_spec x :
  undefined_or_no_keys x = true ↔ no_fields x.
Proof.
  unfold no_fields. destruct x as [o|]; simpl.
  - unfold keys. rewrite length_fmap, Nat.eqb_eq.
    rewrite length_map_to_list, map_size_empty_iff. split.
    + intros ->. by right.
    + intros [?|?]; congruence.
  - split; [by left | done].
Qed.

Lemma isAdd_spec delta : isAdd delta = true ↔ no_fields (old delta).
Proof.
  unfold isAdd. rewrite <- undefined_or_no_keys_spec.
  by destruct (undefined_or_no_keys _).
Qed.

Lemma isDelete_spec delta : isDelete delta = true ↔ no_fields (changed delta).
Proof.
  unfold isDelete. rewrite <- undefined_or_no_keys_spec.
  by destruct (undefined_or_no_keys _).
Qed.

(** C1, as stated, fails: a delta whose [old] and [changed] are both empty
    (or both absent) is an add and a delete at once, so two of the three
    predicates answer true. *)
Lemma both_empty_is_add_and_delete :
  isAdd both_empty = true ∧ isDelete both_empty = true ∧
  isUpdate both_empty = false ∧ classified_once both_empty = false ∧
  isAdd both_absent = true ∧ isDelete both_absent = true ∧
  classified_once both_absent = false.
Proof. vm_compute. repeat split. Qed.

(** C1, amended: [isUpdate] is true exactly when neither [isAdd] nor
    [isDelete] is, so at least one predicate is always true; [isAdd] and
    [isDelete] are both true exactly when [old] and [changed] both carry no
    field, and in every other case exactly one of the three is true. *)
Theorem classification delta :
  isUpdate delta = negb (isDelete delta) && negb (isAdd delta) ∧
  (isAdd delta = true ∨ isUpdate delta = true ∨ isDelete delta = true) ∧
  (isAdd delta = true ∧ isDelete delta = true ↔
     no_fields (old delta) ∧ no_fields (changed delta)) ∧
  (classified_once delta = true ↔
     ¬ (no_fields (old delta) ∧ no_fields (changed delta))).
Proof.
  rewrite <- isAdd_spec, <- isDelete_spec.
  unfold classified_once, isUpdate.
  destruct (isAdd delta), (isDelete delta); simpl; intuition congruence.
Qed.

End Event.

(** ** DS.Events: bind, unbind, trigger *)
Module Events.

(** Functions and context objects are compared by reference only; a natural
    number names each of them. *)
Definition fn := nat.
Definition ctx := nat.
Definition loc := nat.

(** The objects [bind] allocates: the per-event list header uses [next] and
    [tail], a registration node uses [callback], [context] and [next].
    [None] is a property that is missing or [null]; [Object.prototype]
    defines none of the four names, so a read that finds no property of
    the object's own finds nothing. *)
Record obj := mkObj {
  callback : option fn;
  context : option ctx;
  next : option loc;
  tail : option loc
}.

(** [{}] *)
Definition empty_obj : obj := mkObj None None None None.

Definition set_callback (v : option fn) (o : obj) : obj :=
  mkObj v (context o) (next o) (tail o).
Definition set_context (v : option ctx) (o : obj) : obj :=
  mkObj (callback o) v (next o) (tail o).
Definition set_next (v : option loc) (o : obj) : obj :=
  mkObj (callback o) (context o) v (tail o).
Definition set_tail (v : option loc) (o : obj) : obj :=
  mkObj (callback o) (context o) (next o) v.

(** The object store, from locations to the objects allocated so far. *)
Abbreviation heap := (gmap nat obj) (only parsing).

(** The object that mixes the events in: its [_callbacks] property
    ([None] when undefined or [null]) and the objects reachable from it.
    The table is the finite map of the own properties of [_callbacks]. *)
Record bus := mkBus {
  _callbacks : option (gmap string loc);
  store : gmap nat obj
}.

(** A fresh object on which nothing was bound yet. *)
Definition new_bus : bus := mkBus None ∅.

(** Evaluating [{}]: a new location holding an empty object. *)
Definition alloc (h : heap) : loc * heap :=
  let l := fresh (dom h) in (l, <[l := empty_obj]> h).

(** [l.field = v], as a read of the object followed by a write. *)
Definition assign (l : loc) (upd : obj → obj) (h : heap) : option heap :=
  o ← h !! l; Some (<[l := upd o]> h).

(** [calls[ev]], read: the table's own property if it has one, and
    [undefined] ([Some None]) if neither the table nor [Object.prototype]
    has one.  Under a name of [Object.prototype] that the table does not
    define itself, the read gives an object that every table shares
    ([Object.prototype] itself for [__proto__], a function otherwise); a
    list hung on it lives outside the store of one bus, and the model does
    not follow the call: the result is [None]. *)
Definition get (calls : gmap string loc) (ev : string)
    : option (option loc) :=
  match calls !! ev with
  | Some list => Some (Some list)
  | None => if inherited ev then None else Some None
  end.

(** [calls[ev] = list], written: a property of the table's own, except
    under [__proto__], where the assignment replaces the prototype of the
    table; the model does not follow that either. *)
Definition set (calls : gmap string loc) (ev : string) (list : loc)
    : option (gmap string loc) :=
  if String.eqb ev "__proto__" then None else Some (<[ev := list]> calls).

(** [DS.Events.bind(ev, callback, context)]; the result is [this]. *)
Definition bind (ev : string) (callback : fn) (context : option ctx)
    (this : bus) : option bus :=
  (* var calls = this._callbacks || (this._callbacks = {}); *)
  let calls := default ∅ (_callbacks this) in
  (* var list = calls[ev] || (calls[ev] = {}); the write is reached for a
     name that is not inherited, so it makes an own property *)
  own ← get calls ev;
  let '(list, calls, h) :=
    match own with
    | Some list => (list, calls, store this)
    | None => let '(list, h) := alloc (store this) in
              (list, <[ev := list]> calls, h)
    end in
  (* var tail = list.tail || (list.tail = list.next = {}); *)
  lo ← h !! list;
  '(tl, h) ← match tail lo with
             | Some tl => Some (tl, h)
             | None => let '(tl, h) := alloc h in
                       h ← assign list (set_next (Some tl)) h;
                       h ← assign list (set_tail (Some tl)) h;
                       Some (tl, h)
             end;
  (* tail.callback = callback; tail.context = context; *)
  h ← assign tl (set_callback (Some callback)) h;
  h ← assign tl (set_context context) h;
  (* list.tail = tail.next = {}; *)
  let '(n, h) := alloc h in
  h ← assign tl (set_next (Some n)) h;
  h ← assign list (set_tail (Some n)) h;
  Some (mkBus (Some calls) h).

(** The loop of [unbind]: [while ((prev = node) && (node = node.next))]. *)
Fixpoint unbind_loop (fuel : nat) (cb : fn) (node : loc) (h : heap)
    : option heap :=
  match fuel with
  | O => None
  | S fuel =>
    let prev := node in
    po ← h !! prev;
    match next po with
    | None => Some h
    | Some node =>
      no ← h !! node;
      if decide (callback no ≠ Some cb) then
        unbind_loop fuel cb node h (* continue *)
      else
        (* prev.next = node.next; *)
        h ← assign prev (set_next (next no)) h;
        (* node.context = node.callback = null; break; *)
        h ← assign node (set_callback None) h;
        h ← assign node (set_context None) h;
        Some h
    end
  end.

(** The event name when it is truthy: a missing, [null] or empty name is
    falsy. *)
Definition truthy (ev : option string) : option string :=
  match ev with
  | Some name => if bool_decide (name = "") then None else Some name
  | None => None
  end.

(** [DS.Events.unbind(ev, callback)]; the result is [this]. *)
Definition unbind (ev : option string) (callback : option fn) (this : bus)
    : option bus :=
  match truthy ev with
  | None =>
    (* this._callbacks = null; *)
    Some (mkBus None (store this))
  | Some ev =>
    match _callbacks this with
    | None => Some this
    | Some calls =>
      match callback with
      | None =>
        (* calls[ev] = {}; *)
        let '(list, h) := alloc (store this) in
        calls ← set calls ev list;
        Some (mkBus (Some calls) h)
      | Some cb =>
        (* else if (node = calls[ev]) *)
        own ← get calls ev;
        match own with
        | None => Some this
        | Some node =>
          h ← unbind_loop (S (size (store this))) cb node (store this);
          Some (mkBus (Some calls) h)
        end
      end
    end
  end.

(** One invocation [callback.apply(receiver, args)]. *)
Inductive receiver := This | Ctx (c : ctx).

Record call := Call {
  call_fn : fn;
  call_receiver : receiver;
  call_args : list value
}.

(** [node.context || this] *)
Definition receiver_of (o : obj) : receiver :=
  match context o with
  | Some c => Ctx c
  | None => This
  end.

(** [if (callback = node.callback) callback.apply(node.context || this, args)] *)
Definition invoke (o : obj) (args : list value) : list call :=
  match callback o with
  | Some f => [Call f (receiver_of o) args]
  | None => []
  end.

(** The inner loop of [trigger]: [while (node = node.next) { ... }]. *)
Fixpoint dispatch (fuel : nat) (h : heap) (node : loc) (args : list value)
    : option (list call) :=
  match fuel with
  | O => None
  | S fuel =>
    o ← h !! node;
    match next o with
    | None => Some []
    | Some node =>
      no ← h !! node;
      rest ← dispatch fuel h node args;
      Some (invoke no args ++ rest)
    end
  end.

(** The calls [trigger] makes along the table's own list for [ev], when
    it gets to that name. *)
Definition dispatch_event (this : bus) (ev : string) (args : list value)
    : option (list call) :=
  match _callbacks this with
  | None => Some []
  | Some calls =>
    match calls !! ev with
    | None => Some []
    | Some node => dispatch (S (size (store this))) (store this) node args
    end
  end.

(** The outer loop of [trigger], [while (ev = events.pop())], over the names
    still to pop, next one first. *)
Fixpoint trigger_loop (this : bus) (calls : gmap string loc)
    (arguments : list value) (events : list string) : option (list call) :=
  match events with
  | [] => Some []
  | ev :: events =>
    if bool_decide (ev = "") then Some []
    else
      (* if (!(node = calls[ev])) continue; *)
      own ← get calls ev;
      match own with
      | None => trigger_loop this calls arguments events
      | Some node =>
        (* args = ev == 'all' ? arguments : slice.call(arguments, 1) *)
        let args := if bool_decide (ev = "all") then arguments
                    else drop 1 arguments in
        now ← dispatch (S (size (store this))) (store this) node args;
        later ← trigger_loop this calls arguments events;
        Some (now ++ later)
      end
  end.

(** [DS.Events.trigger(eventName, ...rest)]: the calls it makes, in order.
    The listeners themselves are opaque and leave the bus alone. *)
Definition trigger (eventName : string) (rest : list value) (this : bus)
    : option (list call) :=
  let events := ["all"; eventName] in
  match _callbacks this with
  | None => Some []
  | Some calls =>
    trigger_loop this calls (VString eventName :: rest) (reverse events)
  end.

(** *** The registration lists in the store *)

(** A registration: the callback and the context it was bound with. *)
Definition reg : Type := fn * option ctx.

Definition node_of (r : reg) (q : loc) : obj :=
  mkObj (Some r.1) r.2 (Some q) None.

Definition call_of (args : list value) (r : reg) : call :=
  Call r.1 (match r.2 with Some c => Ctx c | None => This end) args.

(** [nodes h ns rs]: the locations [ns] are linked in this order, all but
    the last hold the registrations [rs], and the last is the empty node
    that the next [bind] fills. *)
Fixpoint nodes (h : gmap nat obj) (ns : list loc) (rs : list reg) : Prop :=
  match ns with
  | [] => False
  | p :: ns' =>
    match ns', rs with
    | [], [] => h !! p = Some empty_obj
    | q :: _, r :: rs' => h !! p = Some (node_of r q) ∧ nodes h ns' rs'
    | _, _ => False
    end
  end.

(** The list header [hd] with the nodes [ns] behind it; [ns] is empty for a
    header on which nothing was bound yet. *)
Definition is_list (h : gmap nat obj) (hd : loc) (ns : list loc)
    (rs : list reg) : Prop :=
  NoDup (hd :: ns) ∧
  h !! hd = Some (mkObj None None (head ns) (last ns)) ∧
  (ns = [] ∧ rs = [] ∨ nodes h ns rs).

(** The registrations of [ev], in the order of the list. *)
Definition listeners (this : bus) (ev : string) (rs : list reg) : Prop :=
  match _callbacks this ≫= (.!! ev) with
  | None => rs = []
  | Some hd => ∃ ns, is_list (store this) hd ns rs
  end.

(** Every list of the table [calls] is well formed, and two lists share no
    object: [owner] names the event each object belongs to. *)
Definition lists_ok (calls : gmap string loc) (h : gmap nat obj)
    (owner : loc → string) : Prop :=
  ∀ ev hd, calls !! ev = Some hd →
    ∃ ns rs, is_list h hd ns rs ∧ ∀ p, p ∈ hd :: ns → owner p = ev.

(** The invariant of a bus. *)
Definition inv (this : bus) : Prop :=
  ∀ calls, _callbacks this = Some calls →
    ∃ owner, lists_ok calls (store this) owner.

(** An event name, if one is given, that [Object.prototype] does not
    define. *)
Definition plain (ev : option string) : Prop :=
  from_option (λ name, inherited name = false) True ev.

(** The buses a program can build with event names that
    [Object.prototype] does not define. *)
Inductive reachable : bus → Prop :=
| reachable_new : reachable new_bus
| reachable_bind this this' ev cb cx :
    reachable this → inherited ev = false →
    bind ev cb cx this = Some this' → reachable this'
| reachable_unbind this this' ev cb :
    reachable this → plain ev →
    unbind ev cb this = Some this' → reachable this'.

(** [l] without its first element whose callback is [cb]. *)
Fixpoint remove_first {A} (f : A → fn) (cb : fn) (l : list A) : list A :=
  match l with
  | [] => []
  | x :: l => if decide (f x = cb) then l else x :: remove_first f cb l
  end.

(** Binding the registrations [bs] to [ev], one after the other. *)
Fixpoint bind_each (ev : string) (bs : list reg) (this : bus) : option bus :=
  match bs with
  | [] => Some this
  | b :: bs => this ← bind ev b.1 b.2 this; bind_each ev bs this
  end.

(** *** The bus as a table of sequences *)

(** The operations that change a bus. *)
Inductive op :=
| Bind (ev : string) (callback : fn) (context : option ctx)
| Unbind (ev : option string) (callback : option fn).

(** The operation names no property of [Object.prototype]. *)
Definition plain_op (o : op) : Prop :=
  match o with
  | Bind ev _ _ => inherited ev = false
  | Unbind ev _ => plain ev
  end.

Definition run_op (o : op) (this : bus) : option bus :=
  match o with
  | Bind ev callback context => bind ev callback context this
  | Unbind ev callback => unbind ev callback this
  end.

Fixpoint run (ops : list op) (this : bus) : option bus :=
  match ops with
  | [] => Some this
  | o :: ops => this ← run_op o this; run ops this
  end.

(** The same operations on the ordered sequence of registrations that
    each event name has. *)
Definition registrations (m : gmap string (list reg)) (ev : string)
    : list reg :=
  default [] (m !! ev).

Definition sequence_op (o : op) (m : gmap string (list reg))
    : gmap string (list reg) :=
  match o with
  | Bind ev callback context =>
    <[ev := registrations m ev ++ [(callback, context)]]> m
  | Unbind ev callback =>
    match truthy ev, callback with
    | None, _ => ∅
    | Some ev, None => <[ev := []]> m
    | Some ev, Some cb => <[ev := remove_first fst cb (registrations m ev)]> m
    end
  end.

(** The bus [this] holds the sequences [m]. *)
Definition models (this : bus) (m : gmap string (list reg)) : Prop :=
  inv this ∧
  ∀ ev args,
    dispatch_event this ev args = Some (call_of args <$> registrations m ev).

(** *** The lists are well formed, and what the operations do to them *)

Lemma nodes_is_Some h ns rs p : nodes h ns rs → p ∈ ns → is_Some (h !! p).
Proof.
  revert rs. induction ns as [|x ns IH]; intros rs; simpl; [done|].
  destruct ns as [|q ns], rs as [|r rs]; try done.
  - intros H ->%list_elem_of_singleton. eauto.
  - intros [H1 H2] [->|Hin]%elem_of_cons; eauto.
Qed.

Lemma nodes_ext h h' ns rs :
  (∀ p, p ∈ ns → h' !! p = h !! p) → nodes h ns rs → nodes h' ns rs.
Proof.
  revert rs. induction ns as [|x ns IH]; intros rs Hagree; simpl; [done|].
  destruct ns as [|q ns], rs as [|r rs]; try done.
  - rewrite Hagree; [done|]. apply elem_of_cons; by left.
  - intros [H1 H2]. split.
    + rewrite Hagree; [done|]. apply elem_of_cons; by left.
    + apply IH; [|done]. intros p Hp. apply Hagree. apply elem_of_cons; by right.
Qed.

Lemma nodes_last_empty h ns rs :
  nodes h ns rs → ∃ t, last ns = Some t ∧ h !! t = Some empty_obj.
Proof.
  revert rs. induction ns as [|x ns IH]; intros rs; simpl; [done|].
  destruct ns as [|q ns], rs as [|r rs]; try done.
  - eauto.
  - intros [_ H]. apply IH in H as (t & Ht & Hempty). eauto.
Qed.

(** Filling the last node with [r] and linking a new empty node [n]. *)
Lemma nodes_snoc h ns rs t r n :
  nodes h ns rs → last ns = Some t → NoDup ns → n ∉ ns →
  nodes (<[n := empty_obj]> (<[t := node_of r n]> h)) (ns ++ [n]) (rs ++ [r]).
Proof.
  revert rs. induction ns as [|x ns IH]; intros rs; simpl; [done|].
  destruct ns as [|q ns], rs as [|r' rs]; try done.
  - intros _ [= ->] _ Hn. simpl.
    assert (n ≠ t) by (intros ->; apply Hn, elem_of_cons; by left).
    by simplify_map_eq.
  - intros [H1 H2] Hlast Hnd Hn.
    apply NoDup_cons in Hnd as [Hx Hnd].
    assert (n ≠ x) by (intros ->; apply Hn, elem_of_cons; by left).
    assert (t ≠ x).
    { intros ->. apply Hx. by apply last_Some_elem_of. }
    change ((x :: q :: ns) ++ [n]) with (x :: (q :: ns) ++ [n]).
    change ((r' :: rs) ++ [r]) with (r' :: (rs ++ [r])).
    cbn [app nodes]. split.
    + by simplify_map_eq.
    + apply (IH rs); auto. intros Hin. apply Hn, elem_of_cons; by right.
Qed.

Lemma dispatch_nodes h args ns : ∀ rs p o fuel,
  nodes h ns rs → h !! p = Some o → next o = head ns → length ns < fuel →
  dispatch fuel h p args = Some (call_of args <$> rs).
Proof.
  induction ns as [|x ns IH]; intros rs p o fuel; simpl; [done|].
  intros Hnodes Hp Hnext Hfuel.
  destruct fuel as [|fuel]; [lia|]. simpl. rewrite Hp. simpl. rewrite Hnext.
  destruct ns as [|q ns], rs as [|r rs]; try done.
  - rewrite Hnodes. simpl.
    destruct fuel as [|fuel]; [simpl in *; lia|]. simpl. by rewrite Hnodes.
  - destruct Hnodes as [Hx Hrest]. rewrite Hx. simpl.
    rewrite (IH rs x (node_of r q)); [|done..|simpl in *; lia].
    by destruct r as [f [c|]].
Qed.

(** Distinct allocated locations are no more than the store holds. *)
Lemma footprint_size (h : gmap nat obj) (l : list loc) :
  NoDup l → (∀ p, p ∈ l → is_Some (h !! p)) → length l ≤ size h.
Proof.
  intros Hnd Hin.
  rewrite <- (size_dom (D := gset nat) h), <- (size_list_to_set (C := gset nat) l Hnd).
  apply subseteq_size. intros p Hp. apply elem_of_dom, Hin.
  by apply elem_of_list_to_set in Hp.
Qed.

Lemma is_list_is_Some h hd ns rs p :
  is_list h hd ns rs → p ∈ hd :: ns → is_Some (h !! p).
Proof.
  intros (_ & Hhd & Hns) [->|Hp]%elem_of_cons; [eauto|].
  destruct Hns as [[-> _]|Hns]; [by apply elem_of_nil in Hp|].
  eauto using nodes_is_Some.
Qed.

Lemma is_list_fuel h hd ns rs : is_list h hd ns rs → length ns < S (size h).
Proof.
  intros Hl. assert (length (hd :: ns) ≤ size h) as Hle; [|simpl in Hle; lia].
  apply footprint_size; [apply Hl|].
  intros p Hp. by eapply is_list_is_Some.
Qed.

Lemma is_list_ext h h' hd ns rs :
  (∀ p, p ∈ hd :: ns → h' !! p = h !! p) →
  is_list h hd ns rs → is_list h' hd ns rs.
Proof.
  intros Hagree (Hnd & Hhd & Hns). split; [done|]. split.
  - rewrite Hagree; [done|]. apply elem_of_cons; by left.
  - destruct Hns as [?|Hns]; [by left|right].
    eapply nodes_ext; [|done]. intros p Hp. apply Hagree, elem_of_cons; by right.
Qed.

Lemma dispatch_is_list h hd ns rs args :
  is_list h hd ns rs →
  dispatch (S (size h)) h hd args = Some (call_of args <$> rs).
Proof.
  intros Hl. pose proof (is_list_fuel _ _ _ _ Hl) as Hfuel.
  destruct Hl as (Hnd & Hhd & [[-> ->]|Hns]).
  - simpl. by rewrite Hhd.
  - by eapply dispatch_nodes.
Qed.

Lemma dispatch_listeners this ev rs args :
  listeners this ev rs →
  dispatch_event this ev args = Some (call_of args <$> rs).
Proof.
  unfold listeners, dispatch_event.
  destruct (_callbacks this) as [calls|]; simpl; [|by intros ->].
  destruct (calls !! ev) as [hd|]; [|by intros ->].
  intros [ns Hl]. by eapply dispatch_is_list.
Qed.

Lemma listeners_total this ev : inv this → ∃ rs, listeners this ev rs.
Proof.
  unfold inv, listeners. intros Hinv.
  destruct (_callbacks this) as [calls|]; simpl; [|by exists []].
  destruct (Hinv calls eq_refl) as [owner Howner].
  destruct (calls !! ev) as [hd|] eqn:Hev; [|by exists []].
  destruct (Howner ev hd Hev) as (ns & rs & Hl & _). eauto.
Qed.

Lemma inv_lists_ok this :
  inv this → ∃ owner, lists_ok (default ∅ (_callbacks this)) (store this) owner.
Proof.
  unfold inv. destruct (_callbacks this) as [calls|]; simpl.
  - intros H. by apply H.
  - intros _. exists (λ _, ""). intros ev hd. by rewrite lookup_empty.
Qed.

Lemma dispatch_event_default this ev args :
  dispatch_event this ev args =
  dispatch_event (mkBus (Some (default ∅ (_callbacks this))) (store this)) ev args.
Proof.
  unfold dispatch_event. destruct (_callbacks this); simpl; [done|].
  by rewrite lookup_empty.
Qed.

(** Frame rule: an operation on the list of [ev] that leaves the objects of
    the other events alone keeps their lists, and the invariant. *)
Lemma inv_update calls owner h h' ev hd ns rs :
  lists_ok calls h owner →
  (∀ p, is_Some (h !! p) → owner p ≠ ev → h' !! p = h !! p) →
  is_list h' hd ns rs →
  (∀ p, p ∈ hd :: ns → is_Some (h !! p) → owner p = ev) →
  inv (mkBus (Some (<[ev := hd]> calls)) h') ∧
  (∀ args, dispatch_event (mkBus (Some (<[ev := hd]> calls)) h') ev args
           = Some (call_of args <$> rs)) ∧
  (∀ ev' args, ev' ≠ ev →
     dispatch_event (mkBus (Some (<[ev := hd]> calls)) h') ev' args
     = dispatch_event (mkBus (Some calls) h) ev' args).
Proof.
  intros Hold Hframe Hl Hown.
  assert (∀ ev0 hd0 ns0 rs0, ev0 ≠ ev →
    is_list h hd0 ns0 rs0 → (∀ p, p ∈ hd0 :: ns0 → owner p = ev0) →
    is_list h' hd0 ns0 rs0) as Hkeep.
  { intros ev0 hd0 ns0 rs0 Hne Hl0 Hown0. eapply is_list_ext; [|done].
    intros p Hp. apply Hframe; [by eapply is_list_is_Some|].
    by rewrite (Hown0 p Hp). }
  split; [|split].
  - intros calls' [= <-].
    exists (λ p, if decide (is_Some (h !! p) ∧ owner p ≠ ev) then owner p else ev).
    intros ev0 hd0. destruct (decide (ev0 = ev)) as [->|Hne].
    + rewrite lookup_insert_eq. intros [= <-]. exists ns, rs. split; [done|].
      intros p Hp. case_decide as Hc; [|done].
      destruct Hc as [Hs Hc]. by destruct Hc; apply Hown.
    + rewrite lookup_insert_ne by done. intros Hev0.
      destruct (Hold ev0 hd0 Hev0) as (ns0 & rs0 & Hl0 & Hown0).
      exists ns0, rs0. split; [by eapply Hkeep|].
      intros p Hp. rewrite decide_True; [by apply Hown0|].
      split; [by eapply is_list_is_Some|]. by rewrite (Hown0 p Hp).
  - intros args. unfold dispatch_event. cbn [_callbacks store].
    rewrite lookup_insert_eq. by eapply dispatch_is_list.
  - intros ev' args Hne. unfold dispatch_event. cbn [_callbacks store].
    rewrite lookup_insert_ne by done.
    destruct (calls !! ev') as [hd0|] eqn:Hev0; [|done].
    destruct (Hold ev' hd0 Hev0) as (ns0 & rs0 & Hl0 & Hown0).
    rewrite (dispatch_is_list _ _ _ _ args Hl0).
    eapply dispatch_is_list, Hkeep; done.
Qed.

Lemma get_plain calls ev :
  inherited ev = false → get calls ev = Some (calls !! ev).
Proof. intros Hev. unfold get. rewrite Hev. by destruct (calls !! ev). Qed.

Lemma set_plain calls ev list :
  inherited ev = false → set calls ev list = Some (<[ev := list]> calls).
Proof.
  intros Hev. unfold set. destruct (String.eqb_spec ev "__proto__"); [|done].
  by subst ev.
Qed.

Lemma NoDup_three (a b c : loc) : a ≠ b → c ≠ b → c ≠ a → NoDup [a; b; c].
Proof.
  intros Hab Hcb Hca. apply NoDup_cons. split.
  - rewrite !elem_of_cons. intros [?|[?|?%elem_of_nil]]; congruence.
  - apply NoDup_cons. split; [|apply NoDup_singleton].
    rewrite list_elem_of_singleton. congruence.
Qed.

Lemma assign_Some l f (h : gmap nat obj) o :
  h !! l = Some o → assign l f h = Some (<[l := f o]> h).
Proof. unfold assign. by intros ->. Qed.

Lemma alloc_fresh (h : gmap nat obj) : h !! fresh (dom h) = None.
Proof. apply not_elem_of_dom, is_fresh. Qed.

Lemma fresh_ne (h : gmap nat obj) p : is_Some (h !! p) → p ≠ fresh (dom h).
Proof. intros [o Hp] ->. by rewrite alloc_fresh in Hp. Qed.

Ltac heap_lookup :=
  repeat first
    [ rewrite lookup_insert_eq
    | rewrite lookup_insert_ne by (done || congruence) ].

Ltac assign_step :=
  erewrite assign_Some by (heap_lookup; first [eassumption | reflexivity]);
  cbn [mbind option_bind].

Lemma bind_finish calls calls' owner h h' ev hd ns rs r :
  lists_ok calls h owner →
  (∀ args, dispatch_event (mkBus (Some calls) h) ev args
           = Some (call_of args <$> rs)) →
  <[ev := hd]> calls = calls' →
  (∀ p, is_Some (h !! p) → owner p ≠ ev → h' !! p = h !! p) →
  is_list h' hd ns (rs ++ [r]) →
  (∀ p, p ∈ hd :: ns → is_Some (h !! p) → owner p = ev) →
  inv (mkBus (Some calls') h') ∧
  (∀ args, ∃ tr,
     dispatch_event (mkBus (Some calls) h) ev args = Some tr ∧
     dispatch_event (mkBus (Some calls') h') ev args
     = Some (tr ++ [call_of args r])) ∧
  (∀ ev' args, ev' ≠ ev →
     dispatch_event (mkBus (Some calls') h') ev' args
     = dispatch_event (mkBus (Some calls) h) ev' args).
Proof.
  intros Hold Hrs <- Hframe Hl Hown.
  destruct (inv_update _ _ _ _ _ _ _ _ Hold Hframe Hl Hown) as (Hinv & Hev & Hother).
  split; [done|]. split; [|done].
  intros args. exists (call_of args <$> rs). split; [done|].
  by rewrite Hev, fmap_app.
Qed.

Lemma bind_spec this ev cb cx :
  inv this → inherited ev = false →
  ∃ this', bind ev cb cx this = Some this' ∧ inv this' ∧
    (∀ args, ∃ tr, dispatch_event this ev args = Some tr ∧
       dispatch_event this' ev args = Some (tr ++ [call_of args (cb, cx)])) ∧
    (∀ ev' args, ev' ≠ ev →
       dispatch_event this' ev' args = dispatch_event this ev' args).
Proof.
  intros Hinv Hplain. destruct (inv_lists_ok _ Hinv) as [owner Hold].
  setoid_rewrite (dispatch_event_default this).
  destruct this as [cbs h]. cbn [_callbacks store] in *. clear Hinv.
  set (calls := default ∅ cbs) in *. unfold bind. cbn [_callbacks store].
  fold calls. rewrite (get_plain calls ev Hplain). cbn [mbind option_bind].
  destruct (calls !! ev) as [hd|] eqn:Hev.
  - destruct (Hold ev hd Hev) as (ns & rs & Hl & Hown).
    pose proof Hl as (Hnd & Hhd & Hns).
    assert (∀ args, dispatch_event (mkBus (Some calls) h) ev args
                    = Some (call_of args <$> rs)) as Hrs.
    { intros args. unfold dispatch_event. cbn [_callbacks store].
      rewrite Hev. by eapply dispatch_is_list. }
    rewrite Hhd. cbn [mbind option_bind tail].
    destruct Hns as [[-> ->]|Hns].
    + (* a header with no node yet *)
      cbn [last alloc head] in *.
      set (tl := fresh (dom h)).
      assert (hd ≠ tl) as Hne1 by (apply fresh_ne; eauto).
      assert (h !! tl = None) as Htl by apply alloc_fresh.
      do 4 assign_step.
      match goal with
      | |- context [fresh (dom ?h')] => set (h2 := h'); set (n := fresh (dom h2))
      end.
      assert (h2 !! n = None) as Hn by apply alloc_fresh.
      assert (n ≠ tl) as Hne2
        by (intros E; rewrite E in Hn; subst h2; by rewrite lookup_insert_eq in Hn).
      assert (n ≠ hd) as Hne3
        by (intros E; rewrite E in Hn; subst h2; revert Hn; by heap_lookup).
      assert (h !! n = None) as Hn' by (revert Hn; subst h2; by heap_lookup).
      subst h2. do 2 assign_step. clear Hn.
      eexists. split; [reflexivity|].
      eapply (bind_finish calls calls owner h _ ev hd [tl; n] []);
        [done|done|by apply insert_id| | |].
      * intros p Hp Hop.
        assert (p ≠ hd) by (intros ->; apply Hop, Hown, elem_of_cons; by left).
        assert (p ≠ tl) by (intros ->; rewrite Htl in Hp; by destruct Hp).
        assert (p ≠ n) by (intros ->; rewrite Hn' in Hp; by destruct Hp).
        by heap_lookup.
      * split; [|split].
        -- by apply NoDup_three.
        -- by heap_lookup.
        -- right. simpl. split; by heap_lookup.
      * intros p Hp Hs. apply Hown.
        rewrite !elem_of_cons in Hp. destruct Hp as [->|[->|[->|Hp]]].
        -- apply elem_of_cons; by left.
        -- rewrite Htl in Hs; by destruct Hs.
        -- rewrite Hn' in Hs; by destruct Hs.
        -- by apply elem_of_nil in Hp.
    + (* the empty node at the end of the list is filled *)
      destruct (nodes_last_empty _ _ _ Hns) as (t & Hlast & Ht).
      rewrite Hlast. cbn [mbind option_bind alloc].
      apply NoDup_cons in Hnd as [Hhd_ns Hnd_ns].
      assert (t ∈ ns) as Ht_ns by by apply last_Some_elem_of.
      assert (hd ≠ t) as Hne1 by (by intros ->).
      do 2 assign_step.
      match goal with
      | |- context [fresh (dom ?h')] => set (h2 := h'); set (n := fresh (dom h2))
      end.
      assert (h2 !! n = None) as Hn by apply alloc_fresh.
      assert (n ≠ t) as Hne2
        by (intros E; rewrite E in Hn; subst h2; by rewrite lookup_insert_eq in Hn).
      assert (h !! n = None) as Hn' by (revert Hn; subst h2; by heap_lookup).
      assert (n ≠ hd) as Hne3 by (intros E; rewrite E, Hhd in Hn'; done).
      assert (n ∉ ns) as Hn_ns.
      { intros Hin. destruct (nodes_is_Some _ _ _ _ Hns Hin) as [o Ho]. congruence. }
      subst h2. do 2 assign_step. clear Hn.
      eexists. split; [reflexivity|].
      eapply (bind_finish calls calls owner h _ ev hd (ns ++ [n]) rs);
        [done|done|by apply insert_id| | |].
      * intros p Hp Hop.
        assert (p ≠ hd) by (intros ->; apply Hop, Hown, elem_of_cons; by left).
        assert (p ≠ t).
        { intros ->. apply Hop, Hown, elem_of_cons. by right. }
        assert (p ≠ n) by (intros ->; rewrite Hn' in Hp; by destruct Hp).
        by heap_lookup.
      * split; [|split].
        -- apply NoDup_cons. split.
           ++ rewrite elem_of_app, list_elem_of_singleton. intros [?|?]; done.
           ++ apply NoDup_app. split; [done|]. split; [|apply NoDup_singleton].
              intros p Hp ->%list_elem_of_singleton. done.
        -- heap_lookup. rewrite last_snoc. destruct ns; [done|]. done.
        -- right.
           eapply nodes_ext; [|by apply (nodes_snoc h ns rs t (cb, cx) n)].
           intros p Hp.
           assert (p ≠ hd).
           { intros ->. apply elem_of_app in Hp as [?|Hq]; [done|].
             by apply list_elem_of_singleton in Hq. }
           destruct (decide (p = t)) as [->|?]; [by heap_lookup|].
           destruct (decide (p = n)) as [->|?]; by heap_lookup.
      * intros p Hp Hs. apply Hown.
        apply elem_of_cons in Hp as [->|Hp]; [apply elem_of_cons; by left|].
        apply elem_of_app in Hp as [Hp | ->%list_elem_of_singleton].
        -- apply elem_of_cons; by right.
        -- rewrite Hn' in Hs; by destruct Hs.
  - (* no list for this event yet *)
    cbn [alloc]. set (hd := fresh (dom h)).
    assert (h !! hd = None) as Hhd by apply alloc_fresh.
    rewrite lookup_insert_eq. cbn [mbind option_bind tail empty_obj].
    match goal with
    | |- context [fresh (dom ?h')] => set (h1 := h'); set (tl := fresh (dom h1))
    end.
    assert (h1 !! tl = None) as Htl1 by apply alloc_fresh.
    assert (hd ≠ tl) as Hne1
      by (intros E; rewrite <- E in Htl1; subst h1; by rewrite lookup_insert_eq in Htl1).
    assert (h !! tl = None) as Htl by (revert Htl1; subst h1; by heap_lookup).
    subst h1. clear Htl1. do 4 assign_step.
    match goal with
    | |- context [fresh (dom ?h')] => set (h2 := h'); set (n := fresh (dom h2))
    end.
    assert (h2 !! n = None) as Hn by apply alloc_fresh.
    assert (n ≠ tl) as Hne2
      by (intros E; rewrite E in Hn; subst h2; by rewrite lookup_insert_eq in Hn).
    assert (n ≠ hd) as Hne3
      by (intros E; rewrite E in Hn; subst h2; revert Hn; by heap_lookup).
    assert (h !! n = None) as Hn' by (revert Hn; subst h2; by heap_lookup).
    subst h2. do 2 assign_step. clear Hn.
    eexists. split; [reflexivity|].
    eapply (bind_finish calls _ owner h _ ev hd [tl; n] []); [done| |done| | |].
    + intros args. unfold dispatch_event. cbn [_callbacks store]. by rewrite Hev.
    + intros p Hp Hop.
      assert (p ≠ hd) by (intros ->; rewrite Hhd in Hp; by destruct Hp).
      assert (p ≠ tl) by (intros ->; rewrite Htl in Hp; by destruct Hp).
      assert (p ≠ n) by (intros ->; rewrite Hn' in Hp; by destruct Hp).
      by heap_lookup.
    + split; [|split].
      * by apply NoDup_three.
      * by heap_lookup.
      * right. simpl. split; by heap_lookup.
    + intros p Hp Hs. exfalso.
      rewrite !elem_of_cons in Hp. destruct Hp as [->|[->|[->|Hp]]].
      * rewrite Hhd in Hs; by destruct Hs.
      * rewrite Htl in Hs; by destruct Hs.
      * rewrite Hn' in Hs; by destruct Hs.
      * by apply elem_of_nil in Hp.
Qed.

Lemma remove_first_calls args cb rs :
  call_of args <$> remove_first fst cb rs
  = remove_first call_fn cb (call_of args <$> rs).
Proof.
  induction rs as [|r rs IH]; [done|].
  cbn [remove_first fmap list_fmap call_of call_fn].
  destruct (decide (r.1 = cb)); [done|].
  cbn [fmap list_fmap]. by rewrite <- IH.
Qed.

Lemma nodes_nonempty h ns rs : nodes h ns rs → ∃ x ns', ns = x :: ns'.
Proof. destruct ns; [done|eauto]. Qed.

Lemma set_next_id o : set_next (next o) o = o.
Proof. by destruct o. Qed.

Lemma unbind_loop_nodes cb ns : ∀ rs p o fuel (h : gmap nat obj),
  nodes h ns rs → NoDup (p :: ns) → h !! p = Some o → next o = head ns →
  length ns < fuel →
  ∃ h' ns', unbind_loop fuel cb p h = Some h' ∧
    nodes h' ns' (remove_first fst cb rs) ∧
    h' !! p = Some (set_next (head ns') o) ∧
    (∀ q, q ∈ ns' → q ∈ ns) ∧ NoDup ns' ∧ last ns' = last ns ∧
    (∀ q, q ∉ p :: ns → h' !! q = h !! q) ∧
    (cb ∉ rs.*1 → h' = h).
Proof.
  induction ns as [|x ns IH]; intros rs p o fuel h; simpl; [done|].
  intros Hns Hnd Hp Hnext Hfuel.
  destruct fuel as [|fuel]; [lia|]. cbn [unbind_loop].
  rewrite Hp. cbn [mbind option_bind]. rewrite Hnext.
  apply NoDup_cons in Hnd as [Hp_ns Hnd].
  destruct ns as [|q ns], rs as [|r rs]; try done.
  - (* only the empty node is left *)
    rewrite Hns. cbn [mbind option_bind callback empty_obj].
    rewrite decide_True by done.
    destruct fuel as [|fuel]; [simpl in *; lia|]. cbn [unbind_loop].
    rewrite Hns. cbn [mbind option_bind next empty_obj].
    exists h, [x]. cbn [head]. rewrite <- Hnext, set_next_id. by repeat split.
  - destruct Hns as [Hx Hrest]. rewrite Hx.
    cbn [mbind option_bind callback node_of remove_first].
    assert (p ≠ x) as Hpx by (intros ->; apply Hp_ns, elem_of_cons; by left).
    destruct (decide (r.1 = cb)) as [Heq|Hne].
    + (* this node goes *)
      rewrite decide_False by (intros Hc; apply Hc; by f_equal).
      do 3 assign_step. cbn [next node_of].
      apply NoDup_cons in Hnd as [Hx_ns Hnd].
      exists (<[x:=set_context None (set_callback None (node_of r q))]>
               (<[x:=set_callback None (node_of r q)]>
                 (<[p:=set_next (Some q) o]> h))), (q :: ns).
      split; [done|]. split; [|split; [|split; [|split; [|split; [|split]]]]].
      * eapply nodes_ext; [|done]. intros y Hy.
        assert (y ≠ x) by (by intros ->).
        assert (y ≠ p) by (intros ->; apply Hp_ns, elem_of_cons; by right).
        by heap_lookup.
      * by heap_lookup.
      * intros y Hy. apply elem_of_cons; by right.
      * done.
      * done.
      * intros y Hy. rewrite !not_elem_of_cons in Hy.
        destruct Hy as (? & ? & ?). by heap_lookup.
      * intros Hc. exfalso. apply Hc. simpl. apply elem_of_cons; by left.
    + (* continue *)
      rewrite decide_True by congruence.
      destruct (IH rs x (node_of r q) fuel h Hrest Hnd Hx eq_refl)
        as (h' & ns' & Hloop & Hns' & Hx' & Hsub & Hnd' & Hlast & Hframe & Hsame);
        [simpl in *; lia|].
      destruct (nodes_nonempty _ _ _ Hns') as (q' & ns'' & ->).
      exists h', (x :: q' :: ns''). split; [done|].
      split; [|split; [|split; [|split; [|split; [|split]]]]].
      * split; [by rewrite Hx'|exact Hns'].
      * rewrite Hframe by done.
        rewrite Hp. cbn [head]. by rewrite <- Hnext, set_next_id.
      * intros y [->|Hy]%elem_of_cons; apply elem_of_cons; [by left|right; auto].
      * apply NoDup_cons. split; [|done]. intros Hin. apply Hsub in Hin.
        by apply NoDup_cons in Hnd as [? _].
      * done.
      * intros y Hy. apply Hframe. rewrite not_elem_of_cons in Hy. tauto.
      * intros Hc. apply Hsame. intros Hin. apply Hc. simpl.
        apply elem_of_cons; by right.
Qed.

Lemma unbind_callback_spec this ev cb :
  inv this → ev ≠ "" → inherited ev = false →
  ∃ this', unbind (Some ev) (Some cb) this = Some this' ∧ inv this' ∧
    (∀ args, ∃ tr, dispatch_event this ev args = Some tr ∧
       dispatch_event this' ev args = Some (remove_first call_fn cb tr)) ∧
    (∀ ev' args, ev' ≠ ev →
       dispatch_event this' ev' args = dispatch_event this ev' args) ∧
    ((∀ tr, dispatch_event this ev [] = Some tr → cb ∉ call_fn <$> tr) →
       this' = this).
Proof.
  intros Hinv Hev_ne Hplain. unfold unbind, truthy.
  rewrite bool_decide_eq_false_2 by done.
  destruct this as [[calls|] h]; cbn [_callbacks store]; cycle 1.
  { eexists. split; [done|]. split; [done|]. split; [|done].
    intros args. by exists []. }
  rewrite (get_plain calls ev Hplain). cbn [mbind option_bind].
  destruct (calls !! ev) as [hd|] eqn:Hev; cycle 1.
  { eexists. split; [done|]. split; [done|]. split; [|done].
    intros args. exists []. unfold dispatch_event. cbn [_callbacks]. by rewrite Hev. }
  destruct (inv_lists_ok _ Hinv) as [owner Hold]. simpl in Hold.
  destruct (Hold ev hd Hev) as (ns & rs & Hl & Hown).
  assert (∀ args, dispatch_event (mkBus (Some calls) h) ev args
                  = Some (call_of args <$> rs)) as Hrs.
  { intros args. unfold dispatch_event. cbn [_callbacks store].
    rewrite Hev. by eapply dispatch_is_list. }
  pose proof (is_list_fuel _ _ _ _ Hl) as Hfuel.
  pose proof Hl as (Hnd & Hhd & [[-> ->]|Hns]).
  { (* nothing was bound on this list *)
    cbn [unbind_loop]. rewrite Hhd. cbn [mbind option_bind next head].
    eexists. split; [done|]. split; [done|]. split; [|done].
    intros args. exists []. by rewrite Hrs. }
  destruct (unbind_loop_nodes cb ns rs hd _ (S (size h)) h Hns Hnd Hhd eq_refl Hfuel)
    as (h' & ns' & Hloop & Hns' & Hhd' & Hsub & Hnd' & Hlast & Hframe & Hsame).
  rewrite Hloop. cbn [mbind option_bind].
  eexists. split; [done|].
  assert (is_list h' hd ns' (remove_first fst cb rs)) as Hl'.
  { split; [|split].
    - apply NoDup_cons. split; [|done]. intros Hin%Hsub.
      by apply NoDup_cons in Hnd as [? _].
    - rewrite Hhd'. cbn [set_next callback context tail]. by rewrite Hlast.
    - by right. }
  destruct (inv_update calls owner h h' ev hd ns' (remove_first fst cb rs) Hold)
    as (Hinv' & Hev' & Hother); [| done | |].
  { intros p Hp Hop. apply Hframe. intros Hin. by apply Hop, Hown. }
  { intros p Hp _. apply Hown.
    apply elem_of_cons in Hp as [->|Hp]; apply elem_of_cons; [by left|right; auto]. }
  rewrite (insert_id calls ev hd Hev) in Hinv', Hev', Hother.
  split; [done|]. split; [|split; [done|]].
  - intros args. exists (call_of args <$> rs). split; [done|].
    by rewrite Hev', remove_first_calls.
  - intros Habsent. rewrite Hsame; [done|].
    specialize (Habsent _ (Hrs [])).
    by rewrite <- list_fmap_compose in Habsent.
Qed.

Lemma truthy_Some ev name : truthy ev = Some name → ev = Some name ∧ name ≠ "".
Proof.
  destruct ev as [s|]; [|done]. simpl. case_bool_decide; [done|].
  by intros [= <-].
Qed.

Lemma unbind_event_spec this ev :
  inv this → ev ≠ "" → inherited ev = false →
  ∃ this', unbind (Some ev) None this = Some this' ∧ inv this' ∧
    (∀ args, dispatch_event this' ev args = Some []) ∧
    (∀ ev' args, ev' ≠ ev →
       dispatch_event this' ev' args = dispatch_event this ev' args).
Proof.
  intros Hinv Hne Hplain. unfold unbind, truthy.
  rewrite bool_decide_eq_false_2 by done.
  destruct this as [[calls|] h]; cbn [_callbacks store]; [|by eauto].
  cbn [alloc]. rewrite (set_plain calls ev _ Hplain). cbn [mbind option_bind].
  eexists. split; [done|].
  destruct (inv_lists_ok _ Hinv) as [owner Hold]. simpl in Hold.
  eapply (inv_update calls owner h _ ev _ [] []); [done| | |].
  - intros p Hp _. rewrite lookup_insert_ne; [done|].
    by apply not_eq_sym, fresh_ne.
  - split; [apply NoDup_singleton|]. split; [by rewrite lookup_insert_eq|by left].
  - intros p ->%list_elem_of_singleton Hp. by apply fresh_ne in Hp.
Qed.

Lemma unbind_inv this ev cb :
  inv this → plain ev →
  ∃ this', unbind ev cb this = Some this' ∧ inv this'.
Proof.
  intros Hinv Hplain. destruct (truthy ev) as [name|] eqn:Hname; cycle 1.
  { unfold unbind. rewrite Hname. eexists. split; [done|]. by intros calls. }
  apply truthy_Some in Hname as [-> Hne]. destruct cb as [cb|].
  - destruct (unbind_callback_spec this name cb Hinv Hne Hplain)
      as (this' & ? & ? & _).
    eauto.
  - destruct (unbind_event_spec this name Hinv Hne Hplain)
      as (this' & ? & ? & _).
    eauto.
Qed.

Lemma inv_new : inv new_bus.
Proof. by intros calls. Qed.

Lemma reachable_inv this : reachable this → inv this.
Proof.
  induction 1 as [|this this' ev cb cx _ IH Hev Hbind
                  |this this' ev cb _ IH Hev Hunbind].
  - apply inv_new.
  - destruct (bind_spec this ev cb cx IH Hev) as (this'' & Heq & Hinv & _).
    rewrite Hbind in Heq. by injection Heq as <-.
  - destruct (unbind_inv this ev cb IH Hev) as (this'' & Heq & Hinv).
    rewrite Hunbind in Heq. by injection Heq as <-.
Qed.

Lemma registrations_insert m ev ev' rs :
  registrations (<[ev := rs]> m) ev'
  = if decide (ev = ev') then rs else registrations m ev'.
Proof.
  unfold registrations. rewrite lookup_insert. by case_decide.
Qed.

Lemma run_op_models o this m :
  plain_op o → models this m →
  ∃ this', run_op o this = Some this' ∧ models this' (sequence_op o m).
Proof.
  intros Hplain [Hinv Hm].
  destruct o as [ev cb cx|ev cb]; cbn [run_op sequence_op plain_op] in *.
  - destruct (bind_spec this ev cb cx Hinv Hplain)
      as (this' & Hbind & Hinv' & Hev & Hother).
    exists this'. split; [done|]. split; [done|].
    intros ev' args. rewrite registrations_insert. case_decide as Heq.
    + subst ev'. destruct (Hev args) as (tr & Htr & ->).
      rewrite Hm in Htr. injection Htr as <-. by rewrite fmap_app.
    + rewrite Hother by done. apply Hm.
  - destruct (truthy ev) as [name|] eqn:Hname; cycle 1.
    { unfold unbind. rewrite Hname. eexists. split; [done|].
      split; [by intros calls|]. done. }
    apply truthy_Some in Hname as [-> Hne]. destruct cb as [cb|].
    + destruct (unbind_callback_spec this name cb Hinv Hne Hplain)
        as (this' & Hunbind & Hinv' & Hev & Hother & _).
      exists this'. split; [done|]. split; [done|].
      intros ev' args. rewrite registrations_insert. case_decide as Heq.
      * subst ev'. destruct (Hev args) as (tr & Htr & ->).
        rewrite Hm in Htr. injection Htr as <-. by rewrite remove_first_calls.
      * rewrite Hother by done. apply Hm.
    + destruct (unbind_event_spec this name Hinv Hne Hplain)
        as (this' & Hunbind & Hinv' & Hev & Hother).
      exists this'. split; [done|]. split; [done|].
      intros ev' args. rewrite registrations_insert. case_decide as Heq.
      * subst ev'. apply Hev.
      * rewrite Hother by done. apply Hm.
Qed.

Lemma run_models ops : ∀ this m,
  Forall plain_op ops → models this m →
  ∃ this', run ops this = Some this' ∧
           models this' (foldl (flip sequence_op) m ops).
Proof.
  induction ops as [|o ops IH]; intros this m Hplain Hm; [by eauto|].
  apply Forall_cons in Hplain as [Ho Hplain].
  destruct (run_op_models o this m Ho Hm) as (this1 & Hop & Hm1).
  destruct (IH this1 _ Hplain Hm1) as (this' & Hrun & Hm').
  exists this'. cbn [run]. rewrite Hop. done.
Qed.

(** The linked lists implement the sequences: whatever was bound and
    unbound on a new bus under names that [Object.prototype] does not
    define, every operation returns, and the listeners of each event name
    are called in the order of its sequence. *)
Lemma bus_implements_sequences ops :
  Forall plain_op ops →
  ∃ this, run ops new_bus = Some this ∧
    ∀ ev args,
      dispatch_event this ev args
      = Some (call_of args <$> registrations (foldl (flip sequence_op) ∅ ops) ev).
Proof.
  intros Hplain.
  destruct (run_models ops new_bus ∅ Hplain) as (this & Hrun & _ & Hm);
    [|by eauto].
  split; [apply inv_new|]. done.
Qed.

Lemma trigger_classes this ev rest :
  ev ≠ "" → inherited ev = false →
  trigger ev rest this =
    now ← dispatch_event this ev
             (if bool_decide (ev = "all") then VString ev :: rest else rest);
    later ← dispatch_event this "all" (VString ev :: rest);
    Some (now ++ later).
Proof.
  intros Hne Hplain. unfold trigger, dispatch_event.
  destruct (_callbacks this) as [calls|]; [|done].
  change (reverse ["all"; ev]) with [ev; "all"]. cbn [trigger_loop].
  rewrite (bool_decide_eq_false_2 (ev = "")) by done.
  rewrite (bool_decide_eq_false_2 ("all" = "")) by done.
  rewrite (bool_decide_eq_true_2 ("all" = "all")) by done.
  rewrite (get_plain calls ev Hplain), (get_plain calls "all" eq_refl).
  cbn [drop mbind option_bind].
  destruct (calls !! ev) as [hd|]; cbn [mbind option_bind].
  - destruct (dispatch _ _ hd _) as [now|]; cbn [mbind option_bind]; [|done].
    destruct (calls !! "all") as [hd'|]; cbn [mbind option_bind]; [|done].
    destruct (dispatch _ _ hd' _) as [later|]; cbn [mbind option_bind]; [|done].
    by rewrite app_nil_r.
  - destruct (calls !! "all") as [hd'|]; cbn [mbind option_bind]; [|done].
    destruct (dispatch _ _ hd' _) as [later|]; cbn [mbind option_bind]; [|done].
    by rewrite app_nil_r.
Qed.

Lemma bind_each_spec ev bs : inherited ev = false → ∀ this,
  reachable this →
  ∃ this', bind_each ev bs this = Some this' ∧ reachable this' ∧
    (∀ args, ∃ before, dispatch_event this ev args = Some before ∧
       dispatch_event this' ev args = Some (before ++ (call_of args <$> bs))) ∧
    (∀ ev' args, ev' ≠ ev →
       dispatch_event this' ev' args = dispatch_event this ev' args).
Proof.
  intros Hplain. induction bs as [|[cb cx] bs IH]; intros this Hreach.
  - exists this. split; [done|]. split; [done|]. split; [|done].
    intros args.
    destruct (listeners_total this ev (reachable_inv _ Hreach)) as [rs Hrs].
    exists (call_of args <$> rs).
    rewrite app_nil_r. split; by apply dispatch_listeners.
  - destruct (bind_spec this ev cb cx (reachable_inv _ Hreach) Hplain)
      as (this1 & Hbind & _ & Hev & Hother).
    assert (reachable this1) as Hreach1 by (by eapply reachable_bind).
    destruct (IH this1 Hreach1) as (this' & Heach & Hreach' & Hev' & Hother').
    exists this'. cbn [bind_each fst snd]. rewrite Hbind. split; [done|].
    split; [done|]. split.
    + intros args. destruct (Hev args) as (before & Hbefore & Hnow).
      destruct (Hev' args) as (before' & Hbefore' & Hnow').
      exists before. split; [done|].
      rewrite Hnow in Hbefore'. injection Hbefore' as <-.
      by rewrite Hnow', <- app_assoc.
    + intros ev' args Hne. by rewrite Hother', Hother.
Qed.

(** C5: after binding [C] to the wildcard event and [D] to a named event,
    triggering the named event with arguments [rest] calls [D] with [rest]
    and [C] with the event name followed by [rest]; each comes after the
    listeners its event already had, the named event's listeners first.
    The named event, like the events bound and unbound before, is none
    that [Object.prototype] defines. *)
Theorem wildcard_delivery this ev C D cxC cxD rest :
  reachable this → ev ≠ "" → ev ≠ "all" → inherited ev = false →
  ∃ this1 this2 named wild,
    bind "all" C cxC this = Some this1 ∧
    bind ev D cxD this1 = Some this2 ∧
    dispatch_event this ev rest = Some named ∧
    dispatch_event this "all" (VString ev :: rest) = Some wild ∧
    trigger ev rest this2 =
      Some (named ++ [call_of rest (D, cxD)] ++
            wild ++ [call_of (VString ev :: rest) (C, cxC)]).
Proof.
  intros Hreach Hne Hall Hplain.
  destruct (bind_spec this "all" C cxC (reachable_inv _ Hreach) eq_refl)
    as (this1 & Hbind1 & Hinv1 & Hwild1 & Hother1).
  destruct (bind_spec this1 ev D cxD Hinv1 Hplain)
    as (this2 & Hbind2 & _ & Hnamed2 & Hother2).
  destruct (Hwild1 (VString ev :: rest)) as (wild & Hwild & Hwild').
  destruct (Hnamed2 rest) as (named & Hnamed & Hnamed').
  exists this1, this2, named, wild. rewrite <- (Hother1 ev rest) by done.
  do 4 (split; [done|]).
  rewrite trigger_classes by done. rewrite bool_decide_eq_false_2 by done.
  rewrite Hnamed'. cbn [mbind option_bind].
  rewrite Hother2 by done. rewrite Hwild'. cbn [mbind option_bind].
  by rewrite <- app_assoc.
Qed.

(** On a new bus, with [C] = 1, [D] = 2 and the event ["x"] triggered with 5. *)
Lemma wildcard_delivery_new :
  ∃ this1 this2,
    bind "all" 1 None new_bus = Some this1 ∧
    bind "x" 2 None this1 = Some this2 ∧
    trigger "x" [VNumber (number_of_Z 5)] this2 =
      Some [Call 2 This [VNumber (number_of_Z 5)];
            Call 1 This [VString "x"; VNumber (number_of_Z 5)]].
Proof.
  destruct (wildcard_delivery new_bus "x" 1 2 None None
              [VNumber (number_of_Z 5)] reachable_new)
    as (this1 & this2 & named & wild & H1 & H2 & [= <-] & [= <-] & H5);
    [done..|].
  by exists this1, this2.
Defined.



(** C7, as stated, fails: with the same callback bound twice to an event,
    [unbind] of that callback removes one registration only, and the
    callback is still called when the event is triggered. *)
Lemma unbind_leaves_duplicate :
  (this ← bind "x" 1 None new_bus;
   this ← bind "x" 1 None this;
   this ← unbind (Some "x") (Some 1) this;
   trigger "x" [VNumber (number_of_Z 5)] this)
  = Some [Call 1 This [VNumber (number_of_Z 5)]].
Proof. vm_compute. reflexivity. Qed.

(** C7, amended: [unbind(ev, callback)] with both arguments removes the
    first registration of that callback for that event and no other one:
    the calls made for [ev] are the former ones without the first call of
    [callback], in the same order, the calls made for every other event are
    unchanged, and when no registration matches the bus is left as it is.
    The event name, like those bound and unbound before, is none that
    [Object.prototype] defines. *)
Theorem unbind_first_registration this ev cb :
  reachable this → ev ≠ "" → inherited ev = false →
  ∃ this', unbind (Some ev) (Some cb) this = Some this' ∧
    (∀ args, ∃ tr,
       dispatch_event this ev args = Some tr ∧
       dispatch_event this' ev args = Some (remove_first call_fn cb tr)) ∧
    (∀ ev' args, ev' ≠ ev →
       dispatch_event this' ev' args = dispatch_event this ev' args) ∧
    ((∀ tr, dispatch_event this ev [] = Some tr → cb ∉ call_fn <$> tr) →
       this' = this).
Proof.
  intros Hreach Hne Hplain.
  destruct (unbind_callback_spec this ev cb (reachable_inv _ Hreach) Hne Hplain)
    as (this' & Hunbind & _ & Hspec).
  by exists this'.
Qed.

(** With [A] = 1, [B] = 2 and [A] again bound to ["x"], in this order,
    [unbind("x", A)] takes the first [A] off the list: [B] and the second
    [A] are still called, in this order. *)
Lemma unbind_first_registration_A_B_A :
  ∃ this this',
    bind_each "x" [(1, None); (2, None); (1, None)] new_bus = Some this ∧
    dispatch_event this "x" []
    = Some [Call 1 This []; Call 2 This []; Call 1 This []] ∧
    unbind (Some "x") (Some 1) this = Some this' ∧
    dispatch_event this' "x" [] = Some [Call 2 This []; Call 1 This []].
Proof.
  destruct (bind_each_spec "x" [(1, None); (2, None); (1, None)] eq_refl
              new_bus reachable_new)
    as (this & Heach & Hreach & Hev & _).
  destruct (unbind_first_registration this "x" 1 Hreach)
    as (this' & Hunbind & Hcalls & _); [done..|].
  exists this, this'. split; [done|].
  destruct (Hev []) as (before & [= <-] & Hnow).
  destruct (Hcalls []) as (tr & Htr & ->).
  rewrite Hnow in Htr. injection Htr as <-.
  split; [exact Hnow|]. split; [exact Hunbind|]. reflexivity.
Defined.

End Events.

(** ** DS.types and DS.typeOf *)
Module Types.

(** *** What the host provides

    The string-to-number conversion of the runtime, its number-to-string
    conversion outside the integers below 2^53, and the two constructors
    of the date library, [moment(string, format)] and [moment(number)]. *)
Class Host := {
  StringToNumber : string → number;
  FractionToString : number → string;
  moment_parse : string → string → Moment;
  moment_of_number : number → Moment
}.

(** *** Conversions and operators of the language *)

Definition is_string (v : value) : bool :=
  match v with VString _ => true | _ => false end.
Definition is_number (v : value) : bool :=
  match v with VNumber _ => true | _ => false end.
Definition is_boolean (v : value) : bool :=
  match v with VBool _ => true | _ => false end.
Definition is_null (v : value) : bool :=
  match v with VNull => true | _ => false end.

Definition is_nan (n : number) : bool :=
  match n with S754_nan => true | _ => false end.

(** The integer a finite binary64 value [m * 2^e] denotes, if it is one. *)
Definition integer_value (m : positive) (e : Z) : option Z :=
  if (0 <=? e)%Z then Some (Z.pos m * 2 ^ e)%Z
  else if (Z.pos m mod 2 ^ (- e) =? 0)%Z then Some (Z.pos m / 2 ^ (- e))%Z
  else None.

Section host.
Context `{Host}.

(** [String(n)] for a number.  An integer below 2^53 is printed digit for
    digit; above, the runtime prints the shortest digits that read back as
    the same number, and the host says which. *)
Definition NumberToString (n : number) : string :=
  match n with
  | S754_nan => "NaN"
  | S754_zero _ => "0"
  | S754_infinity false => "Infinity"
  | S754_infinity true => "-Infinity"
  | S754_finite s m e =>
    (if s then "-" else "") +:+
    match integer_value m e with
    | Some z => if (z <? 2 ^ 53)%Z then pretty z
                else FractionToString (SFabs n)
    | None => FractionToString (SFabs n)
    end
  end.

(** [String(v)], as [RegExp.prototype.test] applies it to its argument. *)
Definition ToString (v : value) : string :=
  match v with
  | VUndefined => "undefined"
  | VNull => "null"
  | VBool b => if b then "true" else "false"
  | VNumber n => NumberToString n
  | VString s => s
  | VMoment m => moment_toString m
  end.

(** [Number(v)] *)
Definition ToNumber (v : value) : number :=
  match v with
  | VUndefined => S754_nan
  | VNull => S754_zero false
  | VBool b => if b then number_of_Z 1 else S754_zero false
  | VNumber n => n
  | VString s => StringToNumber s
  | VMoment m => moment_valueOf m
  end.

(** [Boolean(v)] *)
Definition ToBoolean (v : value) : bool :=
  match v with
  | VUndefined | VNull => false
  | VBool b => b
  | VNumber n => match n with S754_zero _ | S754_nan => false | _ => true end
  | VString s => negb (String.eqb s "")
  | VMoment _ => true
  end.

(** [a === b] *)
Definition strict_equal (a b : value) : bool :=
  match a, b with
  | VUndefined, VUndefined | VNull, VNull => true
  | VBool x, VBool y => Bool.eqb x y
  | VNumber x, VNumber y => SFeqb x y
  | VString x, VString y => String.eqb x y
  | VMoment x, VMoment y => Pos.eqb (moment_ref x) (moment_ref y)
  | _, _ => false
  end.

(** [a < b]: two strings are compared unit by unit, anything else as
    numbers; a comparison with NaN is false. *)
Definition less_than (a b : value) : bool :=
  match a, b with
  | VString x, VString y => String.ltb x y
  | _, _ => SFltb (ToNumber a) (ToNumber b)
  end.

(** *** Regular expressions *)

Definition is_digit (c : ascii) : bool :=
  (48 <=? nat_of_ascii c) && (nat_of_ascii c <=? 57).

(** [/^(true|false)$/] *)
Definition boolean_regexp (s : string) : bool :=
  String.eqb s "true" || String.eqb s "false".

(** [[0-9]+] at the start of [s]: what follows the digits. *)
Fixpoint skip_digits (s : string) : string :=
  match s with
  | String c s' => if is_digit c then skip_digits s' else s
  | EmptyString => s
  end.

Definition digits1 (s : string) : option string :=
  match s with
  | String c s' => if is_digit c then Some (skip_digits s') else None
  | EmptyString => None
  end.

(** [/^[\-\.]?[0-9]+([\.][0-9]+)?$/] *)
Definition number_regexp (s : string) : bool :=
  let s := match s with
           | String c s' =>
             if Ascii.eqb c "-"%char || Ascii.eqb c "."%char then
               s'
             else s
           | EmptyString => s
           end in
  match digits1 s with
  | Some EmptyString => true
  | Some (String c s') =>
    Ascii.eqb c "."%char &&
    match digits1 s' with
    | Some EmptyString => true
    | _ => false
    end
  | None => false
  end.

(** The fragment of regular expression sources interpreted here: a
    sequence of [\d{k}] (one digit repeated [k] times, [k] a single digit),
    [.] and literal characters.  Every item matches one character. *)
Inductive item := Digit | AnyChar | Literal (c : ascii).

Definition is_meta (c : ascii) : bool :=
  bool_decide (c ∈ (list_ascii_of_string "\^$*+?()[]{}|")).

Fixpoint parse (source : string) : option (list item) :=
  match source with
  | EmptyString => Some []
  | String "\"%char (String "d"%char (String "{"%char
      (String k (String "}"%char rest)))) =>
    if is_digit k then
      items ← parse rest;
      Some (replicate (nat_of_ascii k - 48) Digit ++ items)
    else None
  | String "."%char rest => items ← parse rest; Some (AnyChar :: items)
  | String c rest =>
    if is_meta c then None
    else items ← parse rest; Some (Literal c :: items)
  end.

Definition matches_item (i : item) (c : ascii) : bool :=
  match i with
  | Digit => is_digit c
  | AnyChar => negb (Ascii.eqb c "010"%char || Ascii.eqb c "013"%char)
  | Literal c' => Ascii.eqb c c'
  end.

(** The items match at the start of [s]. *)
Fixpoint match_here (items : list item) (s : string) : bool :=
  match items, s with
  | [], _ => true
  | i :: items, String c s' => matches_item i c && match_here items s'
  | _ :: _, EmptyString => false
  end.

(** The first position of [s] at which the items match. *)
Fixpoint search (items : list item) (s : string) : option nat :=
  if match_here items s then Some 0
  else match s with
       | String _ s' => S <$> search items s'
       | EmptyString => None
       end.

Fixpoint string_drop (n : nat) (s : string) : string :=
  match n, s with
  | S n, String _ s' => string_drop n s'
  | _, _ => s
  end.

(** A regular expression object built with the [g] flag. *)
Record RegExp := mkRegExp {
  source : string;
  program : list item;
  lastIndex : nat
}.

(** [new RegExp(source, 'g')] *)
Definition RegExp_new (source : string) : option RegExp :=
  items ← parse source;
  Some (mkRegExp source items 0).

(** [r.test(s)] for a global expression: the search starts at [lastIndex],
    which then moves behind the match, or back to 0 when there is none. *)
Definition RegExp_test (r : RegExp) (s : string) : bool * RegExp :=
  if String.length s <? lastIndex r then
    (false, mkRegExp (source r) (program r) 0)
  else
    match search (program r) (string_drop (lastIndex r) s) with
    | Some k =>
      (true, mkRegExp (source r) (program r)
                      (lastIndex r + k + length (program r)))
    | None => (false, mkRegExp (source r) (program r) 0)
    end.

(** [s.replace(pattern, replacement)] with a string pattern: the first
    occurrence only. *)
Fixpoint strip_prefix (p s : string) : option string :=
  match p, s with
  | EmptyString, _ => Some s
  | String a p', String b s' => if Ascii.eqb a b then strip_prefix p' s' else None
  | String _ _, EmptyString => None
  end.

Fixpoint replace (pattern replacement s : string) : string :=
  match strip_prefix pattern s with
  | Some rest => replacement +:+ rest
  | None =>
    match s with
    | String c s' => String c (replace pattern replacement s')
    | EmptyString => EmptyString
    end
  end.


(** *** State: the regular expressions memoised by the time type

    [DS.types.time._regexpTable], from format strings to the expression
    objects built for them.  The table holds the only reference to each
    object, so the object's [lastIndex] is kept in the table entry. *)
Definition M (A : Type) : Type :=
  gmap string RegExp → outcome (A * gmap string RegExp).

Definition ret {A} (a : A) : M A := λ table, Returns (a, table).

Definition bind {A B} (m : M A) (k : A → M B) : M B :=
  λ table,
    match m table with
    | Returns (a, table) => k a table
    | Throws e => Throws e
    end.

Definition throw {A} (e : failure) : M A := λ _, Throws e.

Notation "'let*' x := m 'in' k" := (bind m (λ x, k))
  (at level 10, x name, m at level 100, k at level 200).

(** *** The four type descriptors *)

(** The methods every entry of [DS.types] has.  [test] takes the optional
    format, [coerce] the optional [options.format], [numeric] the optional
    index; a descriptor ignores the arguments its function does not
    declare. *)
Record descriptor := mkDescriptor {
  name : string;
  coerce : value → option string → outcome value;
  test : value → option string → M bool;
  compare : value → value → Z;
  numeric : value → value → outcome value
}.

(** [x || fallback] for an optional string. *)
Definition or_default (x : option string) (fallback : string) : string :=
  match x with
  | Some s => if String.eqb s "" then fallback else s
  | None => fallback
  end.

(** [DS.types.string] *)
Definition string_coerce (v : value) : outcome value :=
  if is_null v then Returns VNull
  else match v with
       | VUndefined => Throws TypeError
       | _ => Returns (VString (ToString v))
       end.

Definition string_test (v : value) : bool := is_string v.

Definition string_compare (s1 s2 : value) : Z :=
  if less_than s1 s2 then (-1)%Z
  else if less_than s2 s1 then 1%Z
  else 0%Z.

Definition string_numeric (v index : value) : outcome value :=
  Returns index.

Definition string_type : descriptor :=
  mkDescriptor "string" (λ v _, string_coerce v) (λ v _, ret (string_test v))
               string_compare string_numeric.

(** [DS.types.boolean] *)
Definition boolean_coerce (v : value) : outcome value :=
  if strict_equal v (VString "false") then Returns (VBool false)
  else Returns (VBool (ToBoolean v)).

Definition boolean_test (v : value) : bool :=
  if is_boolean v || boolean_regexp (ToString v) then true else false.

Definition boolean_compare (n1 n2 : value) : Z :=
  if strict_equal n1 n2 then 0%Z
  else if less_than n1 n2 then (-1)%Z else 1%Z.

Definition boolean_numeric (v : value) : outcome value :=
  Returns (VNumber (if ToBoolean v then number_of_Z 1 else number_of_Z 0)).

Definition boolean_type : descriptor :=
  mkDescriptor "boolean" (λ v _, boolean_coerce v)
               (λ v _, ret (boolean_test v))
               boolean_compare (λ v _, boolean_numeric v).

(** [DS.types.number] *)
Definition number_coerce (v : value) : outcome value :=
  if is_null v then Returns VNull
  else
    let v := ToNumber v in
    if is_nan v then Returns VNull else Returns (VNumber v).

Definition number_test (v : value) : bool :=
  if is_number v || number_regexp (ToString v) then true else false.

Definition number_compare (n1 n2 : value) : Z :=
  if strict_equal n1 n2 then 0%Z
  else if less_than n1 n2 then (-1)%Z else 1%Z.

Definition number_numeric (v : value) : outcome value := Returns v.

Definition number_type : descriptor :=
  mkDescriptor "number" (λ v _, number_coerce v) (λ v _, ret (number_test v))
               number_compare (λ v _, number_numeric v).

(** [DS.types.time] *)
Definition format : string := "DD/MM/YYYY".

Definition _formatLookup : list (string * string) :=
  [("DD", "\d{2}"); ("MM", "\d{2}"); ("YYYY", "\d{4}"); ("YY", "\d{2}")].

(** What [_regexp] hands back: an expression of the table, or the object
    that the table, written [{}], inherits under a name of
    [Object.prototype]. *)
Inductive memo := Expression (r : RegExp) | Shared.

(** [_regexp(format)]: the memoised expression, or a new one stored in the
    table.  The memo is read as [this._regexpTable[format]]: under a name
    of [Object.prototype] the read finds the inherited object, which is
    truthy, and [_regexp] returns it without building anything. *)
Definition _regexp (format : string) : M memo :=
  λ table,
    match table !! format with
    | Some r => Returns (Expression r, table)
    | None =>
      if inherited format then Returns (Shared, table)
      else
        let regexp :=
          foldl (λ regexp pair, replace pair.1 pair.2 regexp)
                format _formatLookup in
        match RegExp_new regexp with
        | Some r => Returns (Expression r, <[format := r]> table)
        | None => Throws Unsupported
        end
    end.

Definition time_coerce (v : value) (options_format : option string)
    : outcome value :=
  match v with
  | VString s =>
    let format := or_default options_format format in
    Returns (VMoment (moment_parse s format))
  | VNumber n => Returns (VMoment (moment_of_number n))
  | _ => Returns v
  end.

(** [this._regexp(format).test(v)]; an inherited object has no method
    [test], and the call raises. *)
Definition time_test (v : value) (fmt : option string) : M bool :=
  match v with
  | VString s =>
    let fmt := or_default fmt format in
    let* r := _regexp fmt in
    match r with
    | Expression r =>
      let '(found, r) := RegExp_test r s in
      λ table, Returns (found, <[fmt := r]> table)
    | Shared => throw TypeError
    end
  | _ => ret true
  end.

Definition time_compare (d1 d2 : value) : Z :=
  if less_than d1 d2 then (-1)%Z
  else if less_than d2 d1 then 1%Z
  else 0%Z.

(** [value.valueOf()]; the line written to the console is left out. *)
Definition time_numeric (v : value) : outcome value :=
  match v with
  | VUndefined | VNull => Throws TypeError
  | VMoment m => Returns (VNumber (moment_valueOf m))
  | _ => Returns v
  end.

Definition time_type : descriptor :=
  mkDescriptor "time" time_coerce time_test time_compare
               (λ v _, time_numeric v).

(** [DS.types], in the order its properties are written. *)
Definition types : list (string * descriptor) :=
  [("string", string_type); ("boolean", boolean_type);
   ("number", number_type); ("time", time_type)].

(** [DS.types[type]] *)
Definition lookup_type (type : string) : option descriptor :=
  snd <$> list_find (λ entry, entry.1 = type) types ≫= λ found, Some found.2.

(** [_.indexOf(names, x)] *)
Definition indexOf (names : list string) (x : string) : option nat :=
  fst <$> list_find (λ y, y = x) names.

(** [names.push(names.splice(i, 1)[0])]: the name at [i] moves to the end.
    When [x] is missing, [i] is -1: [splice] takes the last name off and
    [push] puts it back. *)
Definition move_last (names : list string) (i : option nat) : list string :=
  match i with
  | Some i => delete i names ++ option_list (names !! i)
  | None => names
  end.

(** [_.find(names, predicate)] with a predicate that may change the state. *)
Fixpoint find (names : list string) (predicate : string → M bool)
    : M (option string) :=
  match names with
  | [] => ret None
  | type :: names =>
    let* found := predicate type in
    if found then ret (Some type) else find names predicate
  end.

(** [DS.typeOf(value)] *)
Definition typeOf (v : value) : M string :=
  let types := fst <$> types in
  let types := move_last types (indexOf types "string") in
  let* chosenType :=
    find types (λ type,
      match lookup_type type with
      | Some d => test d v None
      | None => throw TypeError
      end) in
  ret (default "string" chosenType).


(** *** What the claims are stated with *)

(** What a computation returns, without the table. *)
Definition result {A} (o : outcome (A * gmap string RegExp)) : outcome A :=
  match o with
  | Returns (a, _) => Returns a
  | Throws e => Throws e
  end.

(** Running a computation twice in a row. *)
Definition twice {A} (m : M A) : M (A * A) :=
  let* a := m in let* b := m in ret (a, b).

(** The expression [_regexp] builds for a format. *)
Definition compile (fmt : string) : option RegExp :=
  RegExp_new (foldl (λ regexp pair, replace pair.1 pair.2 regexp)
                    fmt _formatLookup).

(** The tables [_regexp] and [test] can produce: under each format, the
    expression built for it, at some [lastIndex]. *)
Definition table_ok (table : gmap string RegExp) : Prop :=
  ∀ fmt r, table !! fmt = Some r →
    ∃ r0, compile fmt = Some r0 ∧ program r = program r0 ∧ source r = source r0.

(** The program of the default format, [\d{2}/\d{2}/\d{4}]. *)
Definition date_program : list item :=
  [Digit; Digit; Literal "/"; Digit; Digit; Literal "/";
   Digit; Digit; Digit; Digit].

(** The result of a comparison as the descriptors report it. *)
Definition sign (c : option comparison) : Z :=
  match c with
  | Some Lt => (-1)%Z
  | Some Gt => 1%Z
  | _ => 0%Z
  end.

(** The values of each type, as its [coerce] produces them. *)
Definition string_value (v : value) : Prop := ∃ s, v = VString s.
Definition boolean_value (v : value) : Prop := ∃ b, v = VBool b.
Definition number_value (v : value) : Prop :=
  ∃ n, v = VNumber n ∧ is_nan n = false.
Definition time_value (v : value) : Prop :=
  ∃ m, v = VMoment m ∧ is_nan (moment_valueOf m) = false.

(** Two numbers, or two time values, that are numerically equal. *)
Definition same_number (a b : value) : Prop :=
  SFeqb (ToNumber a) (ToNumber b) = true.

(** [cmp] orders the values of [carrier]: it is antisymmetric and
    transitive, and it answers 0 exactly on the pairs related by [same]. *)
Record ordered (carrier : value → Prop) (same : value → value → Prop)
    (cmp : value → value → Z) : Prop := mkOrdered {
  ordered_antisym a b :
    carrier a → carrier b → cmp a b = (- cmp b a)%Z;
  ordered_trans a b c :
    carrier a → carrier b → carrier c →
    cmp a b = (-1)%Z → cmp b c = (-1)%Z → cmp a c = (-1)%Z;
  ordered_zero a b :
    carrier a → carrier b → (cmp a b = 0%Z ↔ same a b)
}.

(** [cmp] agrees with the order of the numbers [num] projects to. *)
Definition monotone (carrier : value → Prop) (cmp : value → value → Z)
    (num : value → outcome value) : Prop :=
  ∀ a b, carrier a → carrier b →
    ∃ x y, num a = Returns (VNumber x) ∧ num b = Returns (VNumber y) ∧
           (cmp a b = (-1)%Z ↔ SFltb x y = true).

End host.

(** *** A host to evaluate the model on

    It converts the strings of decimal digits and no others, and knows no
    date: enough to run the examples below. *)
Fixpoint digits_value (s : string) (acc : N) : option N :=
  match s with
  | EmptyString => Some acc
  | String c s =>
    if is_digit c then
      digits_value s (10 * acc + (N_of_ascii c - 48))%N
    else None
  end.

Definition digits_to_number (s : string) : number :=
  match s with
  | EmptyString => S754_zero false
  | _ => match digits_value s 0 with
         | Some n => number_of_Z (Z.of_N n)
         | None => S754_nan
         end
  end.

Definition sample_host : Host := {|
  StringToNumber := digits_to_number;
  FractionToString := λ _, "0.5";
  moment_parse := λ s _, mkMoment 1 S754_nan "Invalid date";
  moment_of_number := λ n, mkMoment 1 n "date"
|}.

(** *** Facts about the model *)

Section facts.
Context `{Host}.

Lemma compile_format :
  compile format = Some (mkRegExp "\d{2}/\d{2}/\d{4}" date_program 0).
Proof. reflexivity. Qed.

Lemma table_ok_empty : table_ok ∅.
Proof. intros fmt r. by rewrite lookup_empty. Qed.

Lemma match_here_length items s :
  match_here items s = true → length items ≤ String.length s.
Proof.
  revert s. induction items as [|i items IH]; intros s; simpl; [lia|].
  destruct s as [|c s]; [done|]. intros [_ Hm]%andb_true_iff.
  apply IH in Hm. simpl. lia.
Qed.

Lemma search_Some_length items s k :
  search items s = Some k → k + length items ≤ String.length s.
Proof.
  revert k. induction s as [|c s IH]; intros k; simpl.
  - destruct (match_here items "") eqn:Hm; [|done].
    intros [= <-]. by apply match_here_length in Hm.
  - destruct (match_here items (String c s)) eqn:Hm.
    + intros [= <-]. by apply match_here_length in Hm.
    + destruct (search items s) as [k'|]; [|done].
      intros [= <-]. specialize (IH k' eq_refl). lia.
Qed.

Lemma search_short items s :
  String.length s < length items → search items s = None.
Proof.
  intros Hlen. destruct (search items s) as [k|] eqn:Hs; [|done].
  apply search_Some_length in Hs. lia.
Qed.

Lemma string_drop_length n s :
  String.length (string_drop n s) = String.length s - n.
Proof.
  revert s. induction n as [|n IH]; intros [|c s]; simpl; done || lia.
Qed.

Lemma RegExp_test_program r s :
  program (RegExp_test r s).2 = program r ∧
  source (RegExp_test r s).2 = source r.
Proof.
  unfold RegExp_test. destruct (_ <? _); [done|].
  by destruct (search _ _).
Qed.

(** A string shorter than the program never matches. *)
Lemma RegExp_test_short r s :
  String.length s < length (program r) → (RegExp_test r s).1 = false.
Proof.
  intros Hlen. unfold RegExp_test. destruct (_ <? _); [done|].
  rewrite search_short; [done|]. rewrite string_drop_length. lia.
Qed.

Lemma _regexp_ok fmt table r table' :
  table_ok table → _regexp fmt table = Returns (Expression r, table') →
  table_ok table' ∧ table' !! fmt = Some r ∧
  ∃ r0, compile fmt = Some r0 ∧ program r = program r0 ∧ source r = source r0.
Proof.
  intros Hok. unfold _regexp. destruct (table !! fmt) as [r1|] eqn:Hfmt.
  - intros [= <- <-]. eauto.
  - destruct (inherited fmt); [done|].
    fold (compile fmt). destruct (compile fmt) as [r0|] eqn:Hc; [|done].
    intros [= <- <-]. split; [|split].
    + intros fmt' r'. destruct (decide (fmt = fmt')) as [<-|Hne].
      * rewrite lookup_insert_eq. intros [= <-]. eauto.
      * rewrite lookup_insert_ne by done. apply Hok.
    + by rewrite lookup_insert_eq.
    + eauto.
Qed.

Lemma time_test_ok v fmt table found table' :
  table_ok table → time_test v fmt table = Returns (found, table') →
  table_ok table'.
Proof.
  intros Hok. destruct v; try (by intros [= <- <-]).
  unfold time_test, bind.
  destruct (_regexp _ table) as [[[r|] table1]|] eqn:Hre; [|done..].
  destruct (_regexp_ok _ _ _ _ Hok Hre) as (Hok1 & _ & r0 & Hc & Hp & Hs).
  pose proof (RegExp_test_program r s) as [Hp' Hs'].
  destruct (RegExp_test r s) as [found' r']. intros [= <- <-].
  intros fmt' r''. destruct (decide (or_default fmt format = fmt')) as [<-|Hne].
  - rewrite lookup_insert_eq. intros [= <-]. exists r0. simpl in *.
    split; [done|]. split; congruence.
  - rewrite lookup_insert_ne by done. apply Hok1.
Qed.

Lemma type_order :
  move_last (types.*1) (indexOf (types.*1) "string")
  = ["boolean"; "number"; "time"; "string"].
Proof. reflexivity. Qed.

Lemma typeOf_unfold v table :
  typeOf v table =
    if boolean_test v then Returns ("boolean", table)
    else if number_test v then Returns ("number", table)
    else match time_test v None table with
         | Returns (found, table') =>
           Returns (if found then "time" else "string", table')
         | Throws e => Throws e
         end.
Proof.
  unfold typeOf. rewrite type_order. cbn [find].
  change (lookup_type "boolean") with (Some boolean_type).
  change (lookup_type "number") with (Some number_type).
  change (lookup_type "time") with (Some time_type).
  change (lookup_type "string") with (Some string_type).
  cbn [test boolean_type number_type time_type string_type].
  unfold bind, ret.
  destruct (boolean_test v); [done|].
  destruct (number_test v); [done|].
  destruct (time_test v None table) as [[[] table']|]; try done.
  by destruct (string_test v).
Qed.

(** C2, as stated, fails: [string.test] compares [typeof v] with
    ['string'], so it answers false for a number, a boolean or [null]. *)
Lemma string_test_rejects_scalars :
  string_test (VNumber (number_of_Z 42)) = false ∧
  string_test (VBool true) = false ∧
  string_test VNull = false.
Proof. by repeat split. Qed.

(** C2, amended: the string type's [test] returns true exactly for the
    values that are strings, and false for every other raw value; it
    leaves the state alone. *)
Theorem string_test_spec v fmt table :
  test string_type v fmt table = Returns (string_test v, table) ∧
  (string_test v = true ↔ ∃ s, v = VString s).
Proof.
  split; [done|]. destruct v; simpl; split; try done; try (by intros [? ?]).
  eauto.
Qed.

Lemma time_test_returns v table :
  ∃ found table', time_test v None table = Returns (found, table').
Proof.
  destruct v; try (by eexists _, _). unfold time_test, bind, _regexp.
  change (or_default None format) with format.
  destruct (table !! format) as [r|].
  - destruct (RegExp_test r s). by eexists _, _.
  - change (inherited format) with false. cbv iota.
    fold (compile format). rewrite compile_format.
    destruct (RegExp_test _ s). by eexists _, _.
Qed.

(** C3: [typeOf] tries boolean, number and time in this order, with string
    moved to the end, and answers the first type whose test succeeds, or
    string; it always answers one of the four names; it answers boolean
    for [true], number for [42] and ["42"], string for ["hello"]. *)
Theorem typeOf_spec v table :
  table_ok table →
  move_last (types.*1) (indexOf (types.*1) "string")
    = ["boolean"; "number"; "time"; "string"] ∧
  typeOf v table =
    (if boolean_test v then Returns ("boolean", table)
     else if number_test v then Returns ("number", table)
     else match test time_type v None table with
          | Returns (found, table') =>
            Returns (if found then "time" else "string", table')
          | Throws e => Throws e
          end) ∧
  (∃ name table', typeOf v table = Returns (name, table') ∧
                  name ∈ ["boolean"; "number"; "time"; "string"]) ∧
  typeOf (VBool true) table = Returns ("boolean", table) ∧
  typeOf (VNumber (number_of_Z 42)) table = Returns ("number", table) ∧
  typeOf (VString "42") table = Returns ("number", table) ∧
  ∃ table', typeOf (VString "hello") table = Returns ("string", table').
Proof.
  intros Hok. split; [apply type_order|]. split; [apply typeOf_unfold|].
  rewrite !typeOf_unfold. split.
  { destruct (boolean_test v); [eexists _, _; split; [done|set_solver]|].
    destruct (number_test v); [eexists _, _; split; [done|set_solver]|].
    destruct (time_test_returns v table) as (found & table' & ->).
    eexists _, _. split; [done|]. destruct found; set_solver. }
  do 3 (split; [done|]).
  change (boolean_test (VString "hello")) with false.
  change (number_test (VString "hello")) with false. cbv iota.
  destruct (time_test_returns (VString "hello") table) as (found & table' & Htest).
  rewrite Htest. exists table'. revert Htest. unfold time_test, bind.
  destruct (_regexp _ table) as [[[r|] table1]|] eqn:Hre; [|done..].
  destruct (_regexp_ok _ _ _ _ Hok Hre) as (_ & _ & r0 & Hc & Hp & _).
  change (or_default None format) with format in Hc.
  rewrite compile_format in Hc. injection Hc as <-.
  pose proof (RegExp_test_short r "hello") as Hshort.
  rewrite Hp in Hshort. specialize (Hshort ltac:(simpl; lia)).
  destruct (RegExp_test r "hello") as [found' r']. simpl in Hshort.
  subst found'. by intros [= <- _].
Qed.

Lemma time_test_fresh s found table1 :
  time_test (VString s) None ∅ = Returns (found, table1) →
  ∃ r, RegExp_test (mkRegExp "\d{2}/\d{2}/\d{4}" date_program 0) s = (found, r) ∧
       table1 = <[format := r]> (<[format := mkRegExp "\d{2}/\d{2}/\d{4}" date_program 0]> ∅).
Proof.
  unfold time_test, bind, _regexp.
  change (or_default None format) with format. rewrite lookup_empty.
  change (inherited format) with false. cbv iota.
  fold (compile format). rewrite compile_format.
  destruct (RegExp_test _ s) as [found' r]. intros [= <- <-]. eauto.
Qed.

(** C4: a successful [time.test] moves the [lastIndex] of the memoised
    expression behind the match, and the same call made again starts its
    search there: on a string too short to hold a second date it then
    answers false, and so does [typeOf], which answers time and then
    string for the same date string. *)
Theorem time_test_not_repeatable s table1 :
  String.length s < 20 →
  time_test (VString s) None ∅ = Returns (true, table1) →
  (∃ r, table1 !! format = Some r ∧ 10 ≤ lastIndex r) ∧
  result (twice (time_test (VString s) None) ∅) = Returns (true, false) ∧
  result (twice (typeOf (VString "01/01/2020")) ∅) = Returns ("time", "string").
Proof.
  intros Hlen Hfirst.
  destruct (time_test_fresh _ _ _ Hfirst) as (r & Htest & ->).
  assert (program r = date_program ∧ 10 ≤ lastIndex r ≤ String.length s)
    as (Hprog & Hlast1 & Hlast2).
  { revert Htest. unfold RegExp_test. cbn [lastIndex program source string_drop].
    destruct (_ <? 0); [done|].
    destruct (search date_program s) as [k|] eqn:Hs; [|done].
    apply search_Some_length in Hs. intros [= <-].
    split; [done|]. simpl in *. lia. }
  split; [|split].
  - exists r. by rewrite lookup_insert_eq.
  - unfold twice, bind. rewrite Hfirst.
    unfold time_test, bind, _regexp. change (or_default None format) with format.
    rewrite lookup_insert_eq.
    pose proof (RegExp_test_short (mkRegExp (source r) (program r) 0)
                  (string_drop (lastIndex r) s)) as Hshort.
    unfold RegExp_test at 1.
    destruct (String.length s <? lastIndex r) eqn:Hlt; [done|].
    rewrite search_short; [done|].
    rewrite string_drop_length, Hprog. simpl. lia.
  - reflexivity.
Qed.

(** C8: for each of the four types, a value that passes [test] and that
    [coerce] turns into something other than [null] is turned into a value
    that passes [test] again, in whatever state the second test runs. *)
Theorem coerce_then_test d v fmt options table table' v' :
  d ∈ types.*2 →
  test d v fmt table = Returns (true, table') →
  coerce d v options = Returns v' →
  v' ≠ VNull →
  ∀ fmt' table1, test d v' fmt' table1 = Returns (true, table1).
Proof.
  intros Hd Htest Hcoerce Hnull fmt' table1.
  cbn [types fmap list_fmap snd] in Hd. rewrite !elem_of_cons in Hd.
  destruct Hd as [->|[->|[->|[->|Hd]]]]; [| | | |by apply elem_of_nil in Hd];
    cbn [test coerce string_type boolean_type number_type time_type] in *.
  - (* string *)
    injection Htest as Hs _. destruct v; try done.
    injection Hcoerce as <-. done.
  - (* boolean *)
    unfold boolean_coerce in Hcoerce.
    destruct (strict_equal _ _); by injection Hcoerce as <-.
  - (* number *)
    unfold number_coerce in Hcoerce. destruct (is_null v); [congruence|].
    destruct (is_nan _); [congruence|]. by injection Hcoerce as <-.
  - (* time *)
    destruct v; injection Hcoerce as <-; done.
Qed.

(** C10: [string.coerce(null)] and [number.coerce(null)] return [null],
    [number.coerce] returns [null] whenever the conversion to a number
    gives NaN, and [typeOf(null)] returns a type name, time, in every
    state. *)
Theorem null_handling :
  string_coerce VNull = Returns VNull ∧
  number_coerce VNull = Returns VNull ∧
  (∀ v, is_nan (ToNumber v) = true → number_coerce v = Returns VNull) ∧
  (∀ table, typeOf VNull table = Returns ("time", table)).
Proof.
  do 2 (split; [done|]). split.
  - intros v Hnan. unfold number_coerce. rewrite Hnan. by destruct (is_null v).
  - intros table. by rewrite typeOf_unfold.
Qed.

Lemma SFcompare_antisym x y : SFcompare y x = CompOpp <$> SFcompare x y.
Proof.
  destruct x as [[]|[]| |[] m1 e1], y as [[]|[]| |[] m2 e2]; try reflexivity;
    simpl; change (Pos.compare_cont Eq) with Pos.compare;
    rewrite (Z.compare_antisym e1 e2), (Pos.compare_antisym m1 m2);
    destruct (e1 ?= e2)%Z; simpl; try reflexivity;
    by destruct (m1 ?= m2)%positive.
Qed.

Lemma finite_compare_Lt (m1 m2 m3 : positive) (e1 e2 e3 : Z) :
  match (e1 ?= e2)%Z with
  | Eq => Pos.compare_cont Eq m1 m2 | Lt => Lt | Gt => Gt
  end = Lt →
  match (e2 ?= e3)%Z with
  | Eq => Pos.compare_cont Eq m2 m3 | Lt => Lt | Gt => Gt
  end = Lt →
  match (e1 ?= e3)%Z with
  | Eq => Pos.compare_cont Eq m1 m3 | Lt => Lt | Gt => Gt
  end = Lt.
Proof.
  change (Pos.compare_cont Eq) with Pos.compare.
  destruct (Z.compare_spec e1 e2), (Z.compare_spec e2 e3),
    (Z.compare_spec e1 e3); try done; try lia.
  rewrite !Pos.compare_lt_iff. lia.
Qed.

Lemma finite_compare_Gt (m1 m2 m3 : positive) (e1 e2 e3 : Z) :
  match (e1 ?= e2)%Z with
  | Eq => CompOpp (Pos.compare_cont Eq m1 m2) | Lt => Gt | Gt => Lt
  end = Lt →
  match (e2 ?= e3)%Z with
  | Eq => CompOpp (Pos.compare_cont Eq m2 m3) | Lt => Gt | Gt => Lt
  end = Lt →
  match (e1 ?= e3)%Z with
  | Eq => CompOpp (Pos.compare_cont Eq m1 m3) | Lt => Gt | Gt => Lt
  end = Lt.
Proof.
  change (Pos.compare_cont Eq) with Pos.compare.
  destruct (Z.compare_spec e1 e2), (Z.compare_spec e2 e3),
    (Z.compare_spec e1 e3); try done; try lia.
  rewrite <- !Pos.compare_antisym, !Pos.compare_lt_iff. lia.
Qed.

Lemma SFcompare_trans x y z :
  SFcompare x y = Some Lt → SFcompare y z = Some Lt → SFcompare x z = Some Lt.
Proof.
  destruct x as [[]|[]| |[] m1 e1], y as [[]|[]| |[] m2 e2],
    z as [[]|[]| |[] m3 e3]; simpl; try done;
    intros [= H1] [= H2]; f_equal;
    eauto using finite_compare_Lt, finite_compare_Gt.
Qed.

Lemma SFcompare_not_nan x y :
  is_nan x = false → is_nan y = false → is_Some (SFcompare x y).
Proof. destruct x as [| | |[]], y as [| | |[]]; simpl; try done; eauto. Qed.

Lemma sign_antisym x y : sign (SFcompare y x) = (- sign (SFcompare x y))%Z.
Proof. rewrite SFcompare_antisym. by destruct (SFcompare x y) as [[]|]. Qed.

Lemma SFltb_swap x y : SFltb y x = true ↔ SFcompare x y = Some Gt.
Proof.
  unfold SFltb. rewrite SFcompare_antisym.
  destruct (SFcompare x y) as [[]|]; simpl; split; done.
Qed.

Lemma strict_compare_sign x y :
  is_nan x = false → is_nan y = false →
  (if SFeqb x y then 0%Z else if SFltb x y then (-1)%Z else 1%Z)
  = sign (SFcompare x y).
Proof.
  intros Hx Hy. destruct (SFcompare_not_nan x y Hx Hy) as [c Hc].
  unfold SFeqb, SFltb. rewrite Hc. by destruct c.
Qed.

Lemma relational_compare_sign x y :
  (if SFltb x y then (-1)%Z else if SFltb y x then 1%Z else 0%Z)
  = sign (SFcompare x y).
Proof.
  destruct (SFltb y x) eqn:Hyx.
  - apply SFltb_swap in Hyx. unfold SFltb. by rewrite Hyx.
  - unfold SFltb in *. rewrite SFcompare_antisym in Hyx.
    by destruct (SFcompare x y) as [[]|].
Qed.

Lemma ascii_compare_trans a b c :
  Ascii.compare a b = Lt → Ascii.compare b c = Lt → Ascii.compare a c = Lt.
Proof. unfold Ascii.compare. rewrite !N.compare_lt_iff. lia. Qed.

Lemma string_compare_trans a : ∀ b c,
  String.compare a b = Lt → String.compare b c = Lt → String.compare a c = Lt.
Proof.
  induction a as [|x a IH]; intros [|y b] [|z c]; simpl; try done.
  destruct (Ascii.compare x y) eqn:Hxy; try done.
  - apply Ascii.compare_eq_iff in Hxy as ->.
    destruct (Ascii.compare y z); try done. apply IH.
  - intros _. destruct (Ascii.compare y z) eqn:Hyz; try done.
    + apply Ascii.compare_eq_iff in Hyz as ->. by rewrite Hxy.
    + by rewrite (ascii_compare_trans x y z).
Qed.

Lemma string_compare_refl a : String.compare a a = Eq.
Proof.
  induction a as [|x a IH]; [done|]. simpl.
  unfold Ascii.compare. by rewrite N.compare_refl.
Qed.

Lemma string_compare_sign a b :
  string_compare (VString a) (VString b) = sign (Some (String.compare a b)).
Proof.
  unfold string_compare, less_than, String.ltb.
  rewrite (String.compare_antisym b a).
  by destruct (String.compare a b).
Qed.

Lemma sign_Lt c : sign c = (-1)%Z ↔ c = Some Lt.
Proof. destruct c as [[]|]; simpl; split; done. Qed.

Lemma sign_Eq c : sign (Some c) = 0%Z ↔ c = Eq.
Proof. destruct c; simpl; split; done. Qed.

Lemma string_ordered : ordered string_value eq string_compare.
Proof.
  split.
  - intros a b [x ->] [y ->]. rewrite !string_compare_sign.
    rewrite (String.compare_antisym x y). by destruct (String.compare y x).
  - intros a b c [x ->] [y ->] [z ->]. rewrite !string_compare_sign, !sign_Lt.
    intros [= Hxy] [= Hyz]. f_equal. by eapply string_compare_trans.
  - intros a b [x ->] [y ->]. rewrite string_compare_sign, sign_Eq. split.
    + by intros ->%String.compare_eq_iff.
    + intros [= ->]. apply string_compare_refl.
Qed.

Lemma boolean_ordered : ordered boolean_value eq boolean_compare.
Proof.
  split.
  - by intros a b [[] ->] [[] ->].
  - by intros a b c [[] ->] [[] ->] [[] ->].
  - by intros a b [[] ->] [[] ->].
Qed.

Lemma boolean_monotone :
  monotone boolean_value boolean_compare boolean_numeric.
Proof.
  intros a b [x ->] [y ->]. eexists _, _. do 2 (split; [reflexivity|]).
  by destruct x, y.
Qed.

Lemma number_compare_sign x y :
  is_nan x = false → is_nan y = false →
  number_compare (VNumber x) (VNumber y) = sign (SFcompare x y).
Proof. apply strict_compare_sign. Qed.

Lemma number_ordered :
  ordered number_value (λ a b, strict_equal a b = true) number_compare.
Proof.
  split.
  - intros a b (x & -> & Hx) (y & -> & Hy).
    rewrite !number_compare_sign by done. apply sign_antisym.
  - intros a b c (x & -> & Hx) (y & -> & Hy) (z & -> & Hz).
    rewrite !number_compare_sign by done. rewrite !sign_Lt.
    apply SFcompare_trans.
  - intros a b _ _. unfold number_compare.
    destruct (strict_equal a b); [done|]. by destruct (less_than a b).
Qed.

Lemma number_monotone : monotone number_value number_compare number_numeric.
Proof.
  intros a b (x & -> & Hx) (y & -> & Hy). exists x, y.
  do 2 (split; [done|]). rewrite number_compare_sign by done.
  rewrite sign_Lt. unfold SFltb. by destruct (SFcompare x y) as [[]|].
Qed.

Lemma time_compare_sign m1 m2 :
  time_compare (VMoment m1) (VMoment m2)
  = sign (SFcompare (moment_valueOf m1) (moment_valueOf m2)).
Proof. apply relational_compare_sign. Qed.

Lemma time_ordered : ordered time_value same_number time_compare.
Proof.
  split.
  - intros a b (x & -> & Hx) (y & -> & Hy).
    rewrite !time_compare_sign. apply sign_antisym.
  - intros a b c (x & -> & Hx) (y & -> & Hy) (z & -> & Hz).
    rewrite !time_compare_sign, !sign_Lt. apply SFcompare_trans.
  - intros a b (x & -> & Hx) (y & -> & Hy).
    rewrite time_compare_sign. unfold same_number, SFeqb. simpl.
    destruct (SFcompare_not_nan _ _ Hx Hy) as [c ->]. by destruct c.
Qed.

Lemma time_monotone : monotone time_value time_compare time_numeric.
Proof.
  intros a b (x & -> & Hx) (y & -> & Hy). eexists _, _.
  do 2 (split; [reflexivity|]). rewrite time_compare_sign, sign_Lt.
  unfold SFltb. by destruct (SFcompare _ _) as [[]|].
Qed.

(** C9, amended: on the values [coerce] produces (strings; booleans;
    numbers other than NaN; time values whose [valueOf()] is not NaN)
    every [compare] is antisymmetric and transitive and answers 0 exactly
    for equal values (numerically equal ones, for numbers and time
    values); for boolean, number and time, [compare(a, b)] is -1 exactly
    when [numeric(a)] is below [numeric(b)].  Nothing is said of
    [string.numeric], which returns the index its caller passes. *)
Theorem compare_orders :
  ordered string_value eq (compare string_type) ∧
  ordered boolean_value eq (compare boolean_type) ∧
  monotone boolean_value (compare boolean_type)
           (λ v, numeric boolean_type v VUndefined) ∧
  ordered number_value (λ a b, strict_equal a b = true)
          (compare number_type) ∧
  monotone number_value (compare number_type)
           (λ v, numeric number_type v VUndefined) ∧
  ordered time_value same_number (compare time_type) ∧
  monotone time_value (compare time_type)
           (λ v, numeric time_type v VUndefined).
Proof.
  split; [apply string_ordered|]. split; [apply boolean_ordered|].
  split; [apply boolean_monotone|]. split; [apply number_ordered|].
  split; [apply number_monotone|]. split; [apply time_ordered|].
  apply time_monotone.
Qed.

End facts.

(** *** The model on the sample host *)


(** [typeOf("hello")] before any other call. *)
Lemma typeOf_hello :
  ∃ table', @typeOf sample_host (VString "hello") ∅ = Returns ("string", table').
Proof.
  destruct (@typeOf_spec sample_host VNull ∅ table_ok_empty)
    as (_ & _ & _ & _ & _ & _ & Hhello).
  exact Hhello.
Defined.

(** [time.test("01/01/2020")], called twice in a row. *)
Lemma time_test_date_twice :
  result (twice (time_test (VString "01/01/2020") None) ∅)
  = Returns (true, false).
Proof.
  eapply (@time_test_not_repeatable sample_host "01/01/2020").
  - simpl. lia.
  - reflexivity.
Defined.

(** [number.test(number.coerce("42"))] *)
Lemma coerce_then_test_42 :
  test (@number_type sample_host) (VNumber (number_of_Z 42)) None ∅
  = Returns (true, ∅).
Proof.
  apply (@coerce_then_test sample_host (@number_type sample_host) (VString "42") None None ∅ ∅).
  - cbn [types fmap list_fmap snd]. rewrite !elem_of_cons. tauto.
  - reflexivity.
  - reflexivity.
  - discriminate.
Defined.

(** C9, as stated, fails twice over.  NaN is a number, [number.test]
    accepts it, and [number.compare(NaN, NaN)] is 1: not 0, and not the
    opposite of itself.  And [string.numeric] returns its second argument,
    whatever the string: ["a"] sorts before ["b"] while the caller may give
    ["a"] the index 1 and ["b"] the index 0. *)
Lemma compare_fails_on_nan_and_index :
  @number_test sample_host (VNumber S754_nan) = true ∧
  compare (@number_type sample_host) (VNumber S754_nan) (VNumber S754_nan)
    = 1%Z ∧
  compare (@string_type sample_host) (VString "a") (VString "b") = (-1)%Z ∧
  numeric (@string_type sample_host) (VString "a") (VNumber (number_of_Z 1))
    = Returns (VNumber (number_of_Z 1)) ∧
  numeric (@string_type sample_host) (VString "b") (VNumber (number_of_Z 0))
    = Returns (VNumber (number_of_Z 0)) ∧
  SFltb (number_of_Z 1) (number_of_Z 0) = false.
Proof. vm_compute. repeat split. Qed.

(** [number.compare(1, 2)] and [number.compare(2, 1)] are opposite. *)
Lemma compare_orders_1_2 :
  compare (@number_type sample_host) (VNumber (number_of_Z 1))
           (VNumber (number_of_Z 2))
  = (- compare (@number_type sample_host) (VNumber (number_of_Z 2))
         (VNumber (number_of_Z 1)))%Z.
Proof.
  destruct (@compare_orders sample_host) as (_ & _ & _ & Hnumber & _).
  apply (ordered_antisym _ _ _ Hnumber); by eexists.
Defined.

(** [number.coerce("abc")] *)
Lemma null_handling_abc :
  @number_coerce sample_host (VString "abc") = Returns VNull.
Proof.
  destruct (@null_handling sample_host) as (_ & _ & Hnan & _).
  apply Hnan. reflexivity.
Defined.

End Types.

(** ** DS.Event: the constructor and [affectedColumns] *)
Module Columns.
Import Event.

(** What the constructor is given: one delta, or an array of deltas. *)
Inductive deltas_arg :=
| One (delta : Delta)
| Many (deltas : list Delta).

Record Event := mkEvent { deltas : list Delta }.

(** [new DS.Event(deltas)]: a delta that is no array is wrapped in one. *)
Definition new_Event (arg : deltas_arg) : Event :=
  mkEvent (match arg with
           | One delta => [delta]
           | Many deltas => deltas
           end).

(** [DS.Events._buildEvent(delta)] *)
Definition _buildEvent (delta : deltas_arg) : Event := new_Event delta.

(** [_.uniq(list)]: the first occurrence of each name, in order. *)
Fixpoint uniq (l : list string) : list string :=
  match l with
  | [] => []
  | x :: l => x :: filter (λ y, y ≠ x) (uniq l)
  end.

(** [_.union(cols, a, b)] *)
Definition union (cols a b : list string) : list string :=
  uniq (cols ++ a ++ b).

(** The update of the specification's example,
    [{old: {name: "Bob"}, changed: {name: "Rob"}}]. *)
Definition bob_to_rob : Delta :=
  mkDelta (Some {[ "name" := VString "Bob" ]})
          (Some {[ "name" := VString "Rob" ]}).

Section underscore.

(** What [_.keys(undefined)] does is the library's business: it raises in
    the releases that hand over to [Object.keys], and returns an empty
    array in later ones. *)
Variable keys_undefined : outcome (list string).

(** [_.keys(delta.old)], [_.keys(delta.changed)]; the names of a map come
    in the order [Event.keys] lists them, which need not be the order the
    properties were written in. *)
Definition keys_of (x : option (gmap string value)) : outcome (list string) :=
  match x with
  | Some o => Returns (keys o)
  | None => keys_undefined
  end.

(** [_.each(this.deltas, function(delta) { cols = _.union(...) })] *)
Fixpoint each_union (cols : list string) (deltas : list Delta)
    : outcome (list string) :=
  match deltas with
  | [] => Returns cols
  | delta :: deltas =>
    match keys_of (old delta) with
    | Returns a =>
      match keys_of (changed delta) with
      | Returns b => each_union (union cols a b) deltas
      | Throws e => Throws e
      end
    | Throws e => Throws e
    end
  end.

(** [affectedColumns()] *)
Definition affectedColumns (this : Event) : outcome (list string) :=
  each_union [] (deltas this).

(** A delta names the column [k] in [old] or in [changed]. *)
Definition mentions (delta : Delta) (k : string) : Prop :=
  ∃ o, (old delta = Some o ∨ changed delta = Some o) ∧ is_Some (o !! k).

(** Both sides of the delta are there. *)
Definition two_sided (delta : Delta) : Prop :=
  is_Some (old delta) ∧ is_Some (changed delta).

(** [_.keys] does not fail on this side of the delta. *)
Definition keys_defined (x : option (gmap string value)) : Prop :=
  is_Some x ∨ keys_undefined = Returns [].

Lemma elem_of_uniq l k : k ∈ uniq l ↔ k ∈ l.
Proof.
  induction l as [|x l IH]; [done|]. simpl.
  rewrite !elem_of_cons, list_elem_of_filter, IH.
  destruct (decide (k = x)); tauto.
Qed.

Lemma NoDup_uniq l : NoDup (uniq l).
Proof.
  induction l as [|x l IH]; simpl; [constructor|].
  apply NoDup_cons. split.
  - rewrite list_elem_of_filter. tauto.
  - by apply NoDup_filter.
Qed.

Lemma elem_of_keys (o : gmap string value) k : k ∈ keys o ↔ is_Some (o !! k).
Proof.
  unfold keys. rewrite list_elem_of_fmap. split.
  - intros ([k' v] & -> & Hin). apply elem_of_map_to_list in Hin. eauto.
  - intros [v Hv]. exists (k, v). split; [done|]. by apply elem_of_map_to_list.
Qed.

Lemma keys_of_defined x :
  keys_defined x →
  ∃ a, keys_of x = Returns a ∧
       ∀ k, k ∈ a ↔ ∃ o, x = Some o ∧ is_Some (o !! k).
Proof.
  destruct x as [o|]; simpl.
  - intros _. exists (keys o). split; [done|]. intros k.
    rewrite elem_of_keys. split; [eauto|]. by intros (o' & [= <-] & Hk).
  - intros [[o Ho] | ->]; [done|]. exists []. split; [done|]. intros k.
    split; [by intros ?%elem_of_nil|]. by intros (o & Ho & _).
Qed.

Lemma each_union_defined deltas : ∀ cols,
  NoDup cols →
  Forall (λ delta, keys_defined (old delta) ∧ keys_defined (changed delta))
         deltas →
  ∃ out, each_union cols deltas = Returns out ∧ NoDup out ∧
    ∀ k, k ∈ out ↔ k ∈ cols ∨ ∃ delta, delta ∈ deltas ∧ mentions delta k.
Proof.
  induction deltas as [|delta deltas IH]; intros cols Hnd Hall.
  - exists cols. split; [done|]. split; [done|]. intros k. split; [by left|].
    intros [Hk|(delta & Hin & _)]; [done|]. by apply elem_of_nil in Hin.
  - apply Forall_cons in Hall as [[Hold Hchanged] Hall]. cbn [each_union].
    destruct (keys_of_defined _ Hold) as (a & -> & Ha).
    destruct (keys_of_defined _ Hchanged) as (b & -> & Hb).
    destruct (IH (union cols a b) (NoDup_uniq _) Hall) as (out & -> & Hout & Hk).
    exists out. split; [done|]. split; [done|]. intros k. rewrite Hk.
    unfold union. rewrite elem_of_uniq, !elem_of_app, Ha, Hb. split.
    + intros [[Hc|[(o & Ho & Hok)|(o & Ho & Hok)]]|(d & Hd & Hm)].
      * by left.
      * right. exists delta. split; [apply elem_of_cons; by left|].
        exists o. eauto.
      * right. exists delta. split; [apply elem_of_cons; by left|].
        exists o. eauto.
      * right. exists d. split; [apply elem_of_cons; by right|done].
    + intros [Hc|(d & Hd & Hm)]; [by left; left|].
      apply elem_of_cons in Hd as [->|Hd]; [|right; eauto].
      destruct Hm as (o & [Ho|Ho] & Hok); left; right; [left|right]; eauto.
Qed.

Lemma each_union_throws deltas e : ∀ cols,
  each_union cols deltas = Throws e ↔
  keys_undefined = Throws e ∧ Exists (λ delta, ¬ two_sided delta) deltas.
Proof.
  induction deltas as [|delta deltas IH]; intros cols; cbn [each_union].
  - split; [done|]. by intros [_ ?%Exists_nil].
  - rewrite Exists_cons. unfold two_sided at 1.
    destruct delta as [[o|] [c|]]; cbn [keys_of old changed].
    + rewrite IH. split; [intros [? ?]; eauto|].
      intros [? [Hn|?]]; [|done]. destruct Hn. eauto.
    + destruct keys_undefined as [b|e'] eqn:Hu.
      * rewrite IH. split; [by intros [? ?]|by intros [? ?]].
      * split; [intros [= ->]|by intros [[= ->] _]].
        split; [done|]. left. by intros [_ [? ?]].
    + destruct keys_undefined as [a|e'] eqn:Hu.
      * rewrite IH. split; [by intros [? ?]|by intros [? ?]].
      * split; [intros [= ->]|by intros [[= ->] _]].
        split; [done|]. left. by intros [[? ?] _].
    + destruct keys_undefined as [a|e'] eqn:Hu.
      * rewrite IH. split; [by intros [? ?]|by intros [? ?]].
      * split; [intros [= ->]|by intros [[= ->] _]].
        split; [done|]. left. by intros [[? ?] _].
Qed.

Lemma affectedColumns_deltas this :
  keys_undefined = Returns [] ∨ Forall two_sided (deltas this) →
  ∃ cols, affectedColumns this = Returns cols ∧ NoDup cols ∧
    ∀ k, k ∈ cols ↔ ∃ delta, delta ∈ deltas this ∧ mentions delta k.
Proof.
  intros Hdef.
  destruct (each_union_defined (deltas this) [] (NoDup_nil_2)) as (out & Hout & Hnd & Hk).
  - destruct Hdef as [Hu|Hall].
    + apply Forall_forall. intros delta _. split; by right.
    + eapply Forall_impl; [done|]. intros delta [? ?]. split; by left.
  - exists out. split; [done|]. split; [done|]. intros k. rewrite Hk.
    split; [|by right]. intros [?%elem_of_nil|?]; done.
Qed.

(** X1: for the event that [_buildEvent], through the constructor, builds
    from one delta or from an array of deltas: when every delta has its
    two sides (or the library takes [undefined] for an object without
    keys), [affectedColumns] returns the names that the one delta, or
    some delta of the array, mentions in [old] or [changed], each of them
    once. *)
Theorem affectedColumns_spec arg :
  keys_undefined = Returns [] ∨ Forall two_sided (deltas (_buildEvent arg)) →
  ∃ cols, affectedColumns (_buildEvent arg) = Returns cols ∧ NoDup cols ∧
    ∀ k, k ∈ cols ↔
      match arg with
      | One delta => mentions delta k
      | Many ds => ∃ delta, delta ∈ ds ∧ mentions delta k
      end.
Proof.
  intros Hdef.
  destruct (affectedColumns_deltas (_buildEvent arg) Hdef)
    as (cols & Hcols & Hnd & Hk).
  exists cols. split; [done|]. split; [done|]. intros k. rewrite Hk.
  destruct arg as [delta|ds]; cbn [_buildEvent new_Event deltas]; [|done].
  split.
  - by intros (delta' & ->%list_elem_of_singleton & Hm).
  - intros Hm. exists delta. split; [by apply list_elem_of_singleton|done].
Qed.

(** X2: [affectedColumns] fails exactly when [_.keys(undefined)] does and
    some delta lacks [old] or [changed]: the deltas that [isAdd] and
    [isDelete] accept without that side. *)
Theorem affectedColumns_throws this e :
  affectedColumns this = Throws e ↔
  keys_undefined = Throws e ∧ Exists (λ delta, ¬ two_sided delta) (deltas this).
Proof. unfold affectedColumns. apply each_union_throws. Qed.

End underscore.

(** The event built from the single delta [bob_to_rob]. *)
Lemma affectedColumns_bob_to_rob :
  affectedColumns (Throws TypeError) (_buildEvent (One bob_to_rob))
  = Returns ["name"].
Proof.
  destruct (affectedColumns_spec (Throws TypeError) (One bob_to_rob))
    as (cols & Hcols & _).
  - right. repeat constructor; by eexists.
  - rewrite Hcols. revert Hcols. vm_compute. congruence.
Defined.

End Columns.

(** ** DS.Events: [trigger] on the table of sequences *)
Module Dispatch.
Import Events.

(** The calls [trigger(ev, ...rest)] makes on the sequences [m]: nothing
    for an empty name; otherwise the listeners of [ev] and then those of
    the wildcard, which are given the name before [rest]. *)
Definition sequence_trigger (m : gmap string (list reg)) (ev : string)
    (rest : list value) : list call :=
  if decide (ev = "") then []
  else
    (call_of (if decide (ev = "all") then VString ev :: rest else rest)
       <$> registrations m ev) ++
    (call_of (VString ev :: rest) <$> registrations m "all").

(** Four operations: [A] = 1 and [B] = 3 bound to ["x"], [C] = 2 to the
    wildcard, and [A] unbound again. *)
Definition bind_bind_bind_unbind : list op :=
  [Bind "x" 1 None; Bind "all" 2 None; Bind "x" 3 (Some 7);
   Unbind (Some "x") (Some 1)].

Lemma trigger_models this m ev rest :
  models this m → inherited ev = false →
  trigger ev rest this = Some (sequence_trigger m ev rest).
Proof.
  intros [_ Hm] Hplain. unfold sequence_trigger. case_decide as Hev.
  - subst ev. unfold trigger. by destruct (_callbacks this).
  - rewrite trigger_classes by done. rewrite !Hm. cbn [mbind option_bind].
    do 2 f_equal. by repeat case_decide; case_bool_decide.
Qed.

(** X3: whatever was bound and unbound on a new bus under event names
    that [Object.prototype] does not define, [trigger] of such a name
    returns, and it calls the listeners of the event in the order of its
    sequence, then those of the wildcard, with the event name before the
    arguments.  An empty event name calls nobody, the wildcard's listeners
    included; the name [all] calls the wildcard's listeners twice over. *)
Theorem trigger_sequences ops :
  Forall plain_op ops →
  ∃ this, run ops new_bus = Some this ∧
    ∀ ev rest, inherited ev = false →
      trigger ev rest this
      = Some (sequence_trigger (foldl (flip sequence_op) ∅ ops) ev rest).
Proof.
  intros Hplain.
  destruct (run_models ops new_bus ∅ Hplain) as (this & Hrun & Hm).
  - split; [apply inv_new|]. done.
  - exists this. split; [done|]. intros ev rest Hev. by apply trigger_models.
Qed.

(** [trigger("x", 5)] after the four operations. *)
Lemma trigger_sequences_x :
  ∃ this,
    run bind_bind_bind_unbind new_bus = Some this ∧
    trigger "x" [VNumber (number_of_Z 5)] this
    = Some [Call 3 (Ctx 7) [VNumber (number_of_Z 5)];
            Call 2 This [VString "x"; VNumber (number_of_Z 5)]].
Proof.
  destruct (trigger_sequences bind_bind_bind_unbind)
    as (this & Hrun & Htrigger).
  - repeat constructor.
  - exists this. split; [done|]. by rewrite Htrigger.
Defined.

End Dispatch.

(** ** DS.types: coercion, projection and inference beyond the claims *)
Module Registry.
Import Types.

(** *** Shapes of strings *)

Fixpoint all_digits (s : string) : bool :=
  match s with
  | EmptyString => true
  | String c s => is_digit c && all_digits s
  end.

(** [d] is made of [n] digits. *)
Definition digits (n : nat) (d : string) : Prop :=
  String.length d = n ∧ all_digits d = true.

Definition starts_with_digit (s : string) : bool :=
  match s with
  | String c _ => is_digit c
  | EmptyString => false
  end.

(** One digit or more. *)
Definition some_digits (d : string) : Prop := d ≠ "" ∧ all_digits d = true.

(** An optional [-] or [.], digits, and optionally a [.] and digits. *)
Definition number_shaped (s : string) : Prop :=
  ∃ sign int frac,
    s = sign +:+ int +:+ frac ∧
    (sign = "" ∨ sign = "-" ∨ sign = ".") ∧
    some_digits int ∧
    (frac = "" ∨ ∃ f, frac = "." +:+ f ∧ some_digits f).

(** The string holds a slash. *)
Fixpoint has_slash (s : string) : bool :=
  match s with
  | EmptyString => false
  | String c s => Ascii.eqb c "/" || has_slash s
  end.

(** *** Formats *)

(** The format holds none of the characters that a regular expression
    reads as an operator, [\ ^ $ * + ? ( ) [ ] { } |]: apart from the
    tokens [_formatLookup] replaces, its expression is made of characters
    that stand for themselves and of [.]. *)
Fixpoint no_meta (fmt : string) : bool :=
  match fmt with
  | EmptyString => true
  | String c fmt => negb (is_meta c) && no_meta fmt
  end.

Definition is_upper (c : ascii) : bool :=
  (65 <=? nat_of_ascii c) && (nat_of_ascii c <=? 90).

Fixpoint all_upper (s : string) : bool :=
  match s with
  | EmptyString => true
  | String c s => is_upper c && all_upper s
  end.

(** A source in which tokens were replaced: characters that are no
    operators, with [\d{2}] and [\d{4}] among them. *)
Inductive shaped : string → Prop :=
| shaped_nil : shaped ""
| shaped_char c s : is_meta c = false → shaped s → shaped (String c s)
| shaped_digits k s :
    k = "2"%char ∨ k = "4"%char → shaped s →
    shaped (String "\"%char (String "d"%char (String "{"%char
             (String k (String "}"%char s))))).

(** The table a first [time.test("01/01/2020")] leaves: the expression of
    the default format, at the end of the date it found. *)
Definition after_date : gmap string RegExp :=
  {[ format := mkRegExp "\d{2}/\d{2}/\d{4}" date_program 10 ]}.

#[local] Arguments String.append !s1 s2 : simpl nomatch.

Section facts.
Context `{Host}.

Ltac each_type Hd :=
  cbn [types fmap list_fmap snd] in Hd; rewrite !elem_of_cons in Hd;
  destruct Hd as [->|[->|[->|[->|Hd]]]]; [| | | |by apply elem_of_nil in Hd].

(** X4: the only call of a [coerce] that throws is [string.coerce] on
    [undefined], a value [string.test] rejects; on every value a type's
    [test] accepts, its [coerce] returns. *)
Theorem coerce_throws d v options e :
  d ∈ types.*2 →
  coerce d v options = Throws e →
  name d = "string" ∧ v = VUndefined ∧ e = TypeError ∧
  ∀ fmt table, test d v fmt table = Returns (false, table).
Proof.
  intros Hd. each_type Hd;
    cbn [coerce name test string_type boolean_type number_type time_type].
  - destruct v; try done. by intros [= <-].
  - unfold boolean_coerce. by destruct (strict_equal _ _).
  - unfold number_coerce. destruct (is_null v); [done|]. by destruct (is_nan _).
  - by destruct v.
Qed.

(** X5: every [coerce] is idempotent: coercing what it returned returns
    the same value. *)
Theorem coerce_idempotent d v options v' :
  d ∈ types.*2 →
  coerce d v options = Returns v' →
  coerce d v' options = Returns v'.
Proof.
  intros Hd. each_type Hd;
    cbn [coerce string_type boolean_type number_type time_type].
  - destruct v; try done; by intros [= <-].
  - unfold boolean_coerce at 1.
    destruct (strict_equal _ _); intros [= <-]; [done|].
    by destruct (ToBoolean v).
  - unfold number_coerce at 1. destruct (is_null v); [by intros [= <-]|].
    destruct (is_nan (ToNumber v)) eqn:Hnan; intros [= <-]; [done|].
    unfold number_coerce. simpl. by rewrite Hnan.
  - by destruct v; intros [= <-].
Qed.

(** X6: a boolean written out by [string.coerce] is read back by
    [boolean.coerce], and passes [boolean.test] on the way; of all strings,
    [boolean.coerce] turns only ["false"] and the empty one into [false]. *)
Theorem boolean_round_trip :
  (∀ b, ∃ s, string_coerce (VBool b) = Returns (VString s) ∧
             boolean_test (VString s) = true ∧
             boolean_coerce (VString s) = Returns (VBool b)) ∧
  (∀ s, boolean_coerce (VString s) = Returns (VBool false) ↔
        s = "false" ∨ s = "").
Proof.
  split.
  - intros []; eexists; by repeat split.
  - intros s. unfold boolean_coerce. cbn [strict_equal ToBoolean].
    destruct (String.eqb_spec s "false") as [->|Hfalse]; [by intuition|].
    destruct (String.eqb_spec s "") as [->|Hempty]; [by intuition|].
    simpl. split; [done|]. by intros [?|?].
Qed.

(** X7: [time.numeric] throws exactly on [null] and [undefined], two
    values that [time.test] accepts, that [time.coerce] returns as they
    are, and for which [typeOf] answers time. *)
Theorem time_numeric_throws v :
  ((∃ e, time_numeric v = Throws e) ↔ v = VNull ∨ v = VUndefined) ∧
  (v = VNull ∨ v = VUndefined →
   time_numeric v = Throws TypeError ∧
   (∀ options, time_coerce v options = Returns v) ∧
   (∀ fmt table, time_test v fmt table = Returns (true, table)) ∧
   (∀ table, typeOf v table = Returns ("time", table))).
Proof.
  split.
  - destruct v; simpl; split; try (by intros [? ?]);
      try (by intros [?|?]); eauto.
  - intros [->| ->]; repeat split; intros; by rewrite ?typeOf_unfold.
Qed.

(** X8: [typeOf] answers string for strings only: a value that is no
    string is boolean, number or time, and the call leaves the memoised
    expressions as they were. *)
Theorem typeOf_not_string v table :
  is_string v = false →
  ∃ type, typeOf v table = Returns (type, table) ∧
          type ∈ ["boolean"; "number"; "time"].
Proof.
  intros Hv. rewrite typeOf_unfold.
  destruct (boolean_test v); [eexists; split; [done|set_solver]|].
  destruct (number_test v); [eexists; split; [done|set_solver]|].
  destruct v; try done; eexists; (split; [done|set_solver]).
Qed.

Lemma RegExp_test_found r1 r2 s :
  program r1 = program r2 → lastIndex r1 = lastIndex r2 →
  (RegExp_test r1 s).1 = (RegExp_test r2 s).1.
Proof.
  intros Hp Hl. unfold RegExp_test. rewrite Hp, Hl.
  destruct (_ <? _); [done|]. by destruct (search _ _).
Qed.

Lemma RegExp_test_false r s r' :
  RegExp_test r s = (false, r') →
  r' = mkRegExp (source r) (program r) 0.
Proof.
  unfold RegExp_test. destruct (_ <? _); [by intros [= <-]|].
  destruct (search _ _); [done|]. by intros [= <-].
Qed.

Lemma compile_lastIndex fmt r : compile fmt = Some r → lastIndex r = 0.
Proof.
  unfold compile, RegExp_new. destruct (parse _); [|done]. by intros [= <-].
Qed.

(** What [time.test] does on a string, once the expression is at hand. *)
Lemma time_test_string s fmt table :
  time_test (VString s) fmt table =
    match _regexp (or_default fmt format) table with
    | Returns (Expression r, table1) =>
      Returns ((RegExp_test r s).1,
               <[or_default fmt format := (RegExp_test r s).2]> table1)
    | Returns (Shared, _) => Throws TypeError
    | Throws e => Throws e
    end.
Proof.
  unfold time_test, bind.
  destruct (_regexp _ table) as [[[r|] table1]|]; [|done..].
  by destruct (RegExp_test r s).
Qed.

(** *** The expressions of formats without operators *)

Lemma parse_char c s :
  is_meta c = false →
  parse (String c s) =
    items ← parse s;
    Some ((if Ascii.eqb c "." then AnyChar else Literal c) :: items).
Proof.
  intros Hc.
  destruct c as [[] [] [] [] [] [] [] []];
    first [by vm_compute in Hc | by destruct (parse s)].
Qed.

Lemma parse_shaped s : shaped s → is_Some (parse s).
Proof.
  induction 1 as [|c s Hc _ [items Hitems]|k s Hk _ [items Hitems]].
  - by eexists.
  - rewrite parse_char, Hitems by done. by eexists.
  - destruct Hk as [-> | ->]; cbn [parse is_digit nat_of_ascii];
      rewrite Hitems; by eexists.
Qed.

Lemma shaped_no_meta s : no_meta s = true → shaped s.
Proof.
  induction s as [|c s IH]; [constructor|]. cbn [no_meta].
  intros [Hc Hs]%andb_true_iff. constructor; [|by apply IH].
  by destruct (is_meta c).
Qed.

Lemma shaped_app a b : shaped a → shaped b → shaped (a +:+ b).
Proof.
  induction 1 as [|c s Hc _ IH|k s Hk _ IH]; intros Hb; cbn [String.append].
  - done.
  - apply shaped_char; auto.
  - apply shaped_digits; auto.
Qed.

Lemma is_upper_not_meta c : is_upper c = true → c ≠ "\"%char.
Proof. by intros Hc ->. Qed.

Lemma strip_prefix_shaped p : ∀ s rest,
  all_upper p = true → shaped s → strip_prefix p s = Some rest →
  shaped rest.
Proof.
  induction p as [|a p IH]; intros s rest; cbn [all_upper strip_prefix].
  - by intros _ Hs [= <-].
  - intros [Ha Hp]%andb_true_iff Hs. destruct s as [|b s]; [done|].
    destruct (Ascii.eqb_spec a b) as [<-|_]; [|done].
    inversion Hs; subst; [by apply IH|].
    by apply is_upper_not_meta in Ha.
Qed.

Lemma strip_prefix_upper a p c s :
  is_upper a = true → is_upper c = false →
  strip_prefix (String a p) (String c s) = None.
Proof.
  intros Ha Hc. cbn [strip_prefix].
  destruct (Ascii.eqb_spec a c) as [->|_]; [congruence|done].
Qed.

Lemma replace_shaped a p rep s :
  all_upper (String a p) = true → shaped rep → shaped s →
  shaped (replace (String a p) rep s).
Proof.
  intros Hp Hrep. pose proof Hp as [Ha _]%andb_true_iff.
  induction 1 as [|c s Hc Hs IH|k s Hk Hs IH].
  - constructor.
  - cbn [replace].
    destruct (strip_prefix (String a p) (String c s)) as [rest|] eqn:Hstrip.
    + apply shaped_app; [done|].
      eapply strip_prefix_shaped; [done| |done]. by constructor.
    + by constructor.
  - cbn [replace]. rewrite strip_prefix_upper by done.
    cbn [replace]. rewrite strip_prefix_upper by done.
    cbn [replace]. rewrite strip_prefix_upper by done.
    cbn [replace].
    rewrite strip_prefix_upper by (by destruct Hk as [-> | ->]).
    cbn [replace]. rewrite strip_prefix_upper by done.
    by apply shaped_digits.
Qed.

(** A format without operators has its expression in the fragment. *)
Lemma compile_no_meta fmt : no_meta fmt = true → is_Some (compile fmt).
Proof.
  intros Hfmt. unfold compile, RegExp_new. cbn [foldl _formatLookup fst snd].
  assert (∀ k, k = "2"%char ∨ k = "4"%char →
    shaped (String "\"%char (String "d"%char (String "{"%char
             (String k "}"))))) as Hrep.
  { intros k Hk. apply shaped_digits; [done|apply shaped_nil]. }
  destruct (parse_shaped
    (replace "YY" "\d{2}" (replace "YYYY" "\d{4}"
       (replace "MM" "\d{2}" (replace "DD" "\d{2}" fmt)))))
    as [items ->]; [|by eexists].
  repeat (apply replace_shaped; [done|apply Hrep; tauto|]).
  by apply shaped_no_meta.
Qed.

(** On such a format, not named like a property of [Object.prototype],
    [_regexp] returns an expression of the fragment and stores it. *)
Lemma _regexp_returns fmt table :
  table_ok table → no_meta fmt = true → inherited fmt = false →
  ∃ r table1, _regexp fmt table = Returns (Expression r, table1) ∧
    (∀ f, f ≠ fmt → table1 !! f = table !! f).
Proof.
  intros Hok Hfmt Hplain. unfold _regexp.
  destruct (table !! fmt) as [r|] eqn:Hr; [by eauto|].
  rewrite Hplain. fold (compile fmt).
  destruct (compile_no_meta fmt Hfmt) as [r ->].
  eexists _, _. split; [done|]. intros f Hf. by rewrite lookup_insert_ne.
Qed.

Lemma RegExp_test_lastIndex r s :
  lastIndex (RegExp_test r s).2 ≤ String.length s ∧
  ((RegExp_test r s).1 = false → lastIndex (RegExp_test r s).2 = 0).
Proof.
  unfold RegExp_test. destruct (String.length s <? lastIndex r) eqn:Hlt.
  - cbn [fst snd lastIndex]. split; [lia|done].
  - apply Nat.ltb_ge in Hlt.
    destruct (search _ _) as [k|] eqn:Hk; cbn [fst snd lastIndex];
      [|split; [lia|done]].
    apply search_Some_length in Hk. rewrite string_drop_length in Hk.
    split; [lia|done].
Qed.

(** X9: for a format without operator characters that is no name of
    [Object.prototype], [time.test] of a string returns; it keeps every
    entry of the table the expression of its format, leaves the entries of
    all other formats as they are, removes none, and leaves under its own
    format the expression built for it, with a [lastIndex] inside the
    tested string, 0 after the answer false.  For a value that is no
    string it answers true and leaves the table alone, whatever the
    format. *)
Theorem time_test_frame v fmt table :
  table_ok table →
  (is_string v = true →
   no_meta (or_default fmt format) = true ∧
   inherited (or_default fmt format) = false) →
  ∃ found table',
    time_test v fmt table = Returns (found, table') ∧
    table_ok table' ∧
    (∀ f, f ≠ or_default fmt format → table' !! f = table !! f) ∧
    (∀ f, is_Some (table !! f) → is_Some (table' !! f)) ∧
    match v with
    | VString s =>
      ∃ r r0, table' !! or_default fmt format = Some r ∧
              compile (or_default fmt format) = Some r0 ∧
              program r = program r0 ∧
              lastIndex r ≤ String.length s ∧
              (found = false → lastIndex r = 0)
    | _ => found = true ∧ table' = table
    end.
Proof.
  intros Hok Hfmt.
  destruct v as [| | | |s|]; try (exists true, table; by repeat split).
  destruct (Hfmt eq_refl) as [Hmeta Hplain].
  destruct (_regexp_returns _ table Hok Hmeta Hplain)
    as (r & table1 & Hre & Hframe).
  destruct (_regexp_ok _ _ _ _ Hok Hre) as (Hok1 & Hr & r0 & Hc & Hp & _).
  pose proof (RegExp_test_lastIndex r s) as [Hle Hzero].
  pose proof (RegExp_test_program r s) as [Hp' _].
  assert (time_test (VString s) fmt table
          = Returns ((RegExp_test r s).1,
                     <[or_default fmt format := (RegExp_test r s).2]> table1))
    as Htest by (by rewrite time_test_string, Hre).
  eexists _, _. split; [exact Htest|].
  split; [exact (time_test_ok _ _ _ _ _ Hok Htest)|]. split; [|split].
  - intros f Hf. rewrite lookup_insert_ne by done. by apply Hframe.
  - intros f Hsome. destruct (decide (f = or_default fmt format)) as [->|Hf].
    + rewrite lookup_insert_eq. eauto.
    + rewrite lookup_insert_ne by done. by rewrite Hframe.
  - eexists _, r0. rewrite lookup_insert_eq. split; [done|].
    split; [done|]. split; [congruence|done].
Qed.

(** X10: for a format without operator characters that is no name of
    [Object.prototype], [time.test] of a string returns, and when it
    answers false it leaves the expression at its start: the next call
    with that format, on any string, answers as the first call ever made
    would. *)
Theorem time_test_after_false s1 fmt table :
  table_ok table →
  no_meta (or_default fmt format) = true →
  inherited (or_default fmt format) = false →
  ∃ found table1,
    time_test (VString s1) fmt table = Returns (found, table1) ∧
    (found = false →
     ∀ s2, result (time_test (VString s2) fmt table1)
           = result (time_test (VString s2) fmt ∅)).
Proof.
  intros Hok Hmeta Hplain.
  destruct (_regexp_returns _ table Hok Hmeta Hplain)
    as (r & table0 & Hre & _).
  destruct (_regexp_ok _ _ _ _ Hok Hre) as (_ & _ & r0 & Hc & Hp & _).
  exists (RegExp_test r s1).1,
    (<[or_default fmt format := (RegExp_test r s1).2]> table0).
  split; [by rewrite time_test_string, Hre|].
  destruct (RegExp_test r s1) as [found r'] eqn:Hfirst. cbn [fst snd].
  intros -> s2. apply RegExp_test_false in Hfirst as ->.
  rewrite !time_test_string.
  unfold _regexp at 1. rewrite lookup_insert_eq.
  unfold _regexp. rewrite lookup_empty, Hplain.
  fold (compile (or_default fmt format)).
  rewrite Hc. cbn [result]. f_equal. apply RegExp_test_found; [done|].
  symmetry. by eapply compile_lastIndex.
Qed.

(** X11: NaN is above every number, itself included, whichever side it
    stands on, and a time value whose [valueOf()] is NaN is level with
    every time value: next to such values neither [compare] is an
    order. *)
Theorem nan_comparisons :
  (∀ x, number_compare (VNumber S754_nan) (VNumber x) = 1%Z ∧
        number_compare (VNumber x) (VNumber S754_nan) = 1%Z) ∧
  (∀ m1 m2, is_nan (moment_valueOf m1) = true →
     time_compare (VMoment m1) (VMoment m2) = 0%Z ∧
     time_compare (VMoment m2) (VMoment m1) = 0%Z).
Proof.
  split.
  - intros x. split; by destruct x.
  - intros [ref1 t1 str1] [ref2 t2 str2]. cbn [moment_valueOf].
    destruct t1; try done. intros _. unfold time_compare, less_than.
    cbn [ToNumber moment_valueOf]. split; by destruct t2.
Qed.

(** *** The strings the tests accept *)

Lemma search_Some items s :
  is_Some (search items s) ↔
  ∃ pre rest, s = pre +:+ rest ∧ match_here items rest = true.
Proof.
  induction s as [|c s IH]; cbn [search].
  - destruct (match_here items "") eqn:Hm.
    + split; [|eauto]. intros _. by exists "", "".
    + split; [by intros [? ?]|]. intros (pre & rest & Heq & Hrest).
      destruct pre, rest; simpl in Heq; try done. by rewrite Hrest in Hm.
  - destruct (match_here items (String c s)) eqn:Hm.
    + split; [|eauto]. intros _. by exists "", (String c s).
    + rewrite fmap_is_Some, IH.
      split; intros (pre & rest & Heq & Hrest).
      * exists (String c pre), rest. by rewrite Heq.
      * destruct pre as [|c' pre]; simpl in Heq;
          [subst rest; by rewrite Hrest in Hm|].
        injection Heq as -> ->. eauto.
Qed.

Lemma match_here_date rest :
  match_here date_program rest = true ↔
  ∃ dd mm yyyy post,
    rest = dd +:+ "/" +:+ mm +:+ "/" +:+ yyyy +:+ post ∧
    digits 2 dd ∧ digits 2 mm ∧ digits 4 yyyy.
Proof.
  unfold digits. split.
  - destruct rest as [|c1 [|c2 [|c3 [|c4 [|c5 [|c6 [|c7 [|c8 [|c9 [|c10 post]]]]]]]]]];
      simpl; rewrite ?andb_false_r; try done.
    rewrite !andb_true_iff, !Ascii.eqb_eq.
    intros (? & ? & -> & ? & ? & -> & ? & ? & ? & ? & _).
    exists (String c1 (String c2 "")), (String c4 (String c5 "")),
      (String c7 (String c8 (String c9 (String c10 "")))), post.
    simpl. rewrite !andb_true_iff. tauto.
  - intros (dd & mm & yyyy & post & -> & [Hdd Hd] & [Hmm Hm] & [Hyyyy Hy]).
    destruct dd as [|c1 [|c2 [|]]]; try done.
    destruct mm as [|c4 [|c5 [|]]]; try done.
    destruct yyyy as [|c7 [|c8 [|c9 [|c10 [|]]]]]; try done.
    simpl in *. rewrite !andb_true_iff in *. rewrite ?Ascii.eqb_refl. tauto.
Qed.

(** X12: the first [time.test] of a string with the default format answers
    true exactly when the string holds a date somewhere: two digits,
    a slash, two digits, a slash and four digits, with anything before
    and after. *)
Theorem time_test_first_call s :
  result (time_test (VString s) None ∅) = Returns true ↔
  ∃ pre dd mm yyyy post,
    s = pre +:+ dd +:+ "/" +:+ mm +:+ "/" +:+ yyyy +:+ post ∧
    digits 2 dd ∧ digits 2 mm ∧ digits 4 yyyy.
Proof.
  rewrite time_test_string. unfold _regexp.
  change (or_default None format) with format. rewrite lookup_empty.
  change (inherited format) with false. cbv iota.
  fold (compile format). rewrite compile_format. cbn [result].
  unfold RegExp_test. cbn [lastIndex program string_drop].
  change (String.length s <? 0) with false. cbv iota.
  transitivity (is_Some (search date_program s)).
  - destruct (search date_program s); simpl; split; try done; eauto.
  - rewrite search_Some. setoid_rewrite match_here_date. split.
    + intros (pre & rest & -> & dd & mm & yyyy & post & -> & ?). eauto 10.
    + intros (pre & dd & mm & yyyy & post & -> & ?). eauto 10.
Qed.

Lemma skip_digits_split s :
  ∃ d, s = d +:+ skip_digits s ∧ all_digits d = true ∧
       starts_with_digit (skip_digits s) = false.
Proof.
  induction s as [|c s (d & Hs & Hd & Hrest)]; [by exists ""|].
  simpl. destruct (is_digit c) eqn:Hc.
  - exists (String c d). simpl. by rewrite Hc, Hd, <- Hs.
  - exists "". simpl. by rewrite Hc.
Qed.

Lemma skip_digits_app d rest :
  all_digits d = true → starts_with_digit rest = false →
  skip_digits (d +:+ rest) = rest.
Proof.
  intros Hd Hrest. induction d as [|c d IH]; simpl in *.
  - destruct rest; [done|]. simpl in *. by rewrite Hrest.
  - apply andb_true_iff in Hd as [-> Hd]. by apply IH.
Qed.

Lemma digits1_Some s rest :
  digits1 s = Some rest →
  ∃ d, some_digits d ∧ s = d +:+ rest ∧ starts_with_digit rest = false.
Proof.
  destruct s as [|c s]; [done|]. simpl.
  destruct (is_digit c) eqn:Hc; [|done]. intros [= <-].
  destruct (skip_digits_split s) as (d & Hs & Hd & Hrest).
  exists (String c d). split; [split; [done|by simpl; rewrite Hc]|].
  split; [simpl; by rewrite <- Hs|done].
Qed.

Lemma digits1_app d rest :
  some_digits d → starts_with_digit rest = false →
  digits1 (d +:+ rest) = Some rest.
Proof.
  intros [Hne Hd] Hrest. destruct d as [|c d]; [done|]. simpl in *.
  apply andb_true_iff in Hd as [-> Hd]. by rewrite skip_digits_app.
Qed.

Lemma is_digit_not_sign c :
  is_digit c = true → Ascii.eqb c "-" || Ascii.eqb c "." = false.
Proof.
  intros Hc. destruct (Ascii.eqb_spec c "-") as [->|_]; [done|].
  by destruct (Ascii.eqb_spec c ".") as [->|_].
Qed.

(** What [number.regexp] makes of the string once the sign is off. *)
Lemma number_regexp_unsigned s :
  match digits1 s with
  | Some EmptyString => true
  | Some (String c s') =>
    Ascii.eqb c "." &&
    match digits1 s' with
    | Some EmptyString => true
    | _ => false
    end
  | None => false
  end = true ↔
  ∃ int frac, s = int +:+ frac ∧ some_digits int ∧
    (frac = "" ∨ ∃ f, frac = "." +:+ f ∧ some_digits f).
Proof.
  split.
  - destruct (digits1 s) as [rest|] eqn:Hs; [|done].
    apply digits1_Some in Hs as (int & Hint & -> & Hrest).
    destruct rest as [|c s']; [intros _; exists int, ""; eauto|].
    intros [->%Ascii.eqb_eq Hf]%andb_true_iff.
    destruct (digits1 s') as [[|? ?]|] eqn:Hs'; try done.
    apply digits1_Some in Hs' as (f & Hf' & -> & _).
    exists int, ("." +:+ f +:+ ""). split; [done|]. split; [done|].
    right. exists f. split; [|done]. f_equal. clear. by induction f; simpl; f_equal.
  - intros (int & frac & -> & Hint & [->|(f & -> & Hf)]).
    + by rewrite digits1_app.
    + rewrite digits1_app by done. simpl.
      replace f with (f +:+ "") by (clear; by induction f; simpl; f_equal).
      by rewrite digits1_app.
Qed.

Lemma number_regexp_shaped s : number_regexp s = true ↔ number_shaped s.
Proof.
  unfold number_regexp, number_shaped. destruct s as [|c s].
  - split; [done|]. intros (sign & int & frac & Heq & _ & [Hne _] & _).
    destruct sign, int; done.
  - destruct (Ascii.eqb c "-" || Ascii.eqb c ".") eqn:Hsign.
    + rewrite number_regexp_unsigned. split.
      * intros (int & frac & -> & Hint & Hfrac).
        exists (String c ""), int, frac. split; [done|]. split; [|done].
        apply orb_true_iff in Hsign as [->%Ascii.eqb_eq| ->%Ascii.eqb_eq]; auto.
      * intros (sign & int & frac & Heq & Hs & Hint & Hfrac).
        destruct Hs as [->|[->| ->]]; simpl in Heq.
        -- destruct Hint as [Hne Hd]. destruct int as [|c' int]; [done|].
           simpl in *. injection Heq as <- ->.
           apply andb_true_iff in Hd as [Hc _].
           apply is_digit_not_sign in Hc. congruence.
        -- injection Heq as _ ->. eauto.
        -- injection Heq as _ ->. eauto.
    + rewrite number_regexp_unsigned. split.
      * intros (int & frac & Heq & Hint & Hfrac). exists "", int, frac. eauto.
      * intros (sign & int & frac & Heq & Hs & Hint & Hfrac).
        destruct Hs as [->|[->| ->]]; simpl in Heq; [eauto|..];
          injection Heq as -> _; done.
Qed.

(** X13: [number.test] accepts exactly the strings made of an optional
    [-] or [.], one digit or more, and optionally a [.] with one digit or
    more behind it: no exponent, no [+], no blank, and not the empty
    string. *)
Theorem number_test_strings s :
  number_test (VString s) = true ↔ number_shaped s.
Proof.
  unfold number_test. cbn [is_number ToString orb].
  rewrite <- number_regexp_shaped. by destruct (number_regexp s).
Qed.

Lemma has_slash_app a b : has_slash (a +:+ b) = has_slash a || has_slash b.
Proof. induction a as [|c a IH]; simpl; [done|]. by rewrite IH, orb_assoc. Qed.

Lemma all_digits_no_slash d : all_digits d = true → has_slash d = false.
Proof.
  induction d as [|c d IH]; [done|]. simpl.
  intros [Hc Hd]%andb_true_iff. rewrite IH by done.
  by destruct (Ascii.eqb_spec c "/") as [->|_].
Qed.

Lemma number_shaped_no_slash s : number_shaped s → has_slash s = false.
Proof.
  intros (sign & int & frac & -> & Hs & [_ Hint] & Hfrac).
  rewrite !has_slash_app, (all_digits_no_slash int) by done.
  assert (has_slash sign = false) as -> by (by destruct Hs as [->|[->| ->]]).
  destruct Hfrac as [->|(f & -> & _ & Hf)]; [done|].
  by rewrite has_slash_app, (all_digits_no_slash f).
Qed.

Lemma search_no_slash s : has_slash s = false → search date_program s = None.
Proof.
  induction s as [|c s IH]; [done|]. cbn [has_slash search].
  intros [Hc Hs]%orb_false_iff. rewrite IH by done.
  destruct (match_here date_program (String c s)) eqn:Hm; [|done].
  apply match_here_date in Hm as (dd & mm & yyyy & post & Heq & [Hdd _] & _).
  assert (has_slash (String c s) = true) as Hslash.
  { rewrite Heq, !has_slash_app. simpl. by rewrite orb_true_r. }
  simpl in Hslash. by rewrite Hc, Hs in Hslash.
Qed.

Lemma string_drop_no_slash n s :
  has_slash s = false → has_slash (string_drop n s) = false.
Proof.
  revert s. induction n as [|n IH]; intros [|c s]; simpl; try done.
  intros [_ Hs]%orb_false_iff. by apply IH.
Qed.

Lemma date_test_no_slash r s :
  program r = date_program → has_slash s = false →
  (RegExp_test r s).1 = false.
Proof.
  intros Hp Hs. unfold RegExp_test. destruct (_ <? _); [done|].
  by rewrite Hp, search_no_slash by by apply string_drop_no_slash.
Qed.

Lemma regexp_default table :
  table_ok table →
  ∃ r table1, _regexp format table = Returns (Expression r, table1) ∧
              program r = date_program.
Proof.
  intros Hok. unfold _regexp. destruct (table !! format) as [r|] eqn:Hr.
  - destruct (Hok _ _ Hr) as (r0 & Hc & Hp & _).
    rewrite compile_format in Hc. injection Hc as <-. eauto.
  - change (inherited format) with false. cbv iota.
    fold (compile format). rewrite compile_format. eauto.
Qed.

(** X14: of [boolean.test], [number.test] and [time.test] with the default
    format, at most one accepts a given string, whatever was tested
    before: for a string, [typeOf] does not depend on the order in which
    it tries the three. *)
Theorem string_tests_exclusive s table :
  table_ok table →
  (boolean_test (VString s) = true →
   number_test (VString s) = false ∧
   result (time_test (VString s) None table) = Returns false) ∧
  (number_test (VString s) = true →
   result (time_test (VString s) None table) = Returns false).
Proof.
  intros Hok. rewrite time_test_string.
  change (or_default None format) with format.
  destruct (regexp_default table Hok) as (r & table1 & -> & Hp).
  cbn [result]. split.
  - unfold boolean_test, boolean_regexp. cbn [is_boolean ToString orb].
    destruct (String.eqb_spec s "true") as [->|_].
    { intros _. split; [done|]. f_equal. by apply date_test_no_slash. }
    destruct (String.eqb_spec s "false") as [->|_]; [|done].
    intros _. split; [done|]. f_equal. by apply date_test_no_slash.
  - intros Hnum. assert (number_shaped s) as Hshape.
    { apply number_regexp_shaped. revert Hnum. unfold number_test.
      cbn [is_number ToString orb]. by destruct (number_regexp s). }
    f_equal. by apply date_test_no_slash, number_shaped_no_slash.
Qed.

End facts.

(** *** On the sample host *)

(** [string.coerce(undefined)] *)
Lemma coerce_throws_undefined :
  test (@string_type sample_host) VUndefined None ∅ = Returns (false, ∅).
Proof.
  apply (@coerce_throws sample_host (@string_type sample_host) VUndefined
           None TypeError).
  - cbn [types fmap list_fmap snd]. rewrite !elem_of_cons. tauto.
  - reflexivity.
Defined.

(** [number.coerce(number.coerce("42"))] *)
Lemma coerce_idempotent_42 :
  coerce (@number_type sample_host) (VNumber (number_of_Z 42)) None
  = Returns (VNumber (number_of_Z 42)).
Proof.
  apply (@coerce_idempotent sample_host (@number_type sample_host)
           (VString "42") None).
  - cbn [types fmap list_fmap snd]. rewrite !elem_of_cons. tauto.
  - reflexivity.
Defined.

(** [time.numeric(null)] *)
Lemma time_numeric_null : time_numeric VNull = Throws TypeError.
Proof.
  destruct (@time_numeric_throws sample_host VNull) as [_ Hnull].
  apply Hnull. by left.
Defined.

(** [typeOf(null)] *)
Lemma typeOf_not_string_null :
  ∃ type, @typeOf sample_host VNull ∅ = Returns (type, ∅) ∧
          type ∈ ["boolean"; "number"; "time"].
Proof. by apply (@typeOf_not_string sample_host VNull ∅). Defined.

Lemma table_ok_after_date : table_ok after_date.
Proof.
  intros fmt r. unfold after_date.
  intros [<- <-]%lookup_singleton_Some. by eexists.
Qed.

(** With a date found under the default format, [time.test] of a dotted
    date under a dotted format finds it and leaves the default format's
    expression where it was. *)
Lemma time_test_frame_other_format :
  ∃ table',
    time_test (VString "01.01.2020") (Some "DD.MM.YYYY") after_date
    = Returns (true, table') ∧
    table' !! format = after_date !! format.
Proof.
  destruct (time_test_frame (VString "01.01.2020") (Some "DD.MM.YYYY")
              after_date table_ok_after_date (λ _, conj eq_refl eq_refl))
    as (found & table' & Htest & _ & Hframe & _).
  exists table'. split; [|by apply Hframe].
  rewrite Htest. vm_compute in Htest. by injection Htest as <- _.
Defined.

(** With a date found under the default format, the same call again
    starts behind it; [time.test("hello")] fails and puts the expression
    back at its start, and the date is found again. *)
Lemma time_test_after_hello :
  time_test (VString "01/01/2020") None ∅ = Returns (true, after_date) ∧
  ∃ table1,
    time_test (VString "hello") None after_date = Returns (false, table1) ∧
    result (time_test (VString "01/01/2020") None table1) = Returns true.
Proof.
  split; [reflexivity|].
  destruct (time_test_after_false "hello" None after_date
              table_ok_after_date eq_refl eq_refl)
    as (found & table1 & Htest & Hreset).
  exists table1. assert (found = false) as ->.
  { vm_compute in Htest. by injection Htest as <- _. }
  split; [exact Htest|]. by rewrite Hreset.
Defined.

(** An invalid date next to the first millisecond. *)
Lemma nan_comparisons_invalid_date :
  time_compare (H := sample_host)
    (VMoment (mkMoment 1 S754_nan "Invalid date"))
    (VMoment (mkMoment 2 (number_of_Z 1) "date")) = 0%Z.
Proof.
  destruct (@nan_comparisons sample_host) as [_ Htime].
  by destruct (Htime (mkMoment 1 S754_nan "Invalid date")
                 (mkMoment 2 (number_of_Z 1) "date") eq_refl).
Defined.

(** ["42"] is a number and holds no date. *)
Lemma string_tests_exclusive_42 :
  result (time_test (VString "42") None ∅) = Returns false.
Proof.
  destruct (@string_tests_exclusive sample_host "42" ∅ table_ok_empty)
    as [_ Hnumber].
  by apply Hnumber.
Defined.

End Registry.
